(** * VaultX secure journal: key wrapping, entry encryption and the
      hash-chained tamper log (src/src/crypto.js, src/src/storage.js,
      src/app/index.tsx and the blockchain module src/blockchain.js).

    Shallow embedding.  Values that the JavaScript code reads from storage
    as JSON are kept typed: an optional string field is [option string]
    ([None] is the key being absent / [undefined]), a number field is
    [option Z].  Library primitives the repository only calls
    (expo-crypto's SHA-256, CryptoJS's AES, HMAC, PBKDF2, Base64, Utf8,
    [Date] parsing, the random number generator) are section variables;
    where a proof needs a property of one of them it is a section
    hypothesis stating the library's documented contract.  Randomness and
    the clock are oracles passed in explicitly. *)

From Stdlib Require Import String Ascii List ZArith Lia Bool.
From Stdlib Require Import DecimalString.
Import ListNotations.
Open Scope string_scope.

(* ------------------------------------------------------------------ *)
(** ** JavaScript values *)

(** A JS value that is [undefined], [null] or a string: used for
    [prevHash], where the migration check distinguishes [undefined] from
    [null]. *)
Inductive jsval : Type :=
| JUndef
| JNull
| JStr (s : string).

(** [o || d] for an optional string: [undefined] and [""] are falsy. *)
Definition or_str (o : option string) (d : string) : string :=
  match o with
  | Some s => if String.eqb s "" then d else s
  | None => d
  end.

(** Truthiness of an optional string. *)
Definition truthy (o : option string) : bool :=
  match o with
  | Some s => negb (String.eqb s "")
  | None => false
  end.

(** [v || d] for a [jsval]. *)
Definition or_js (v : jsval) (d : string) : string :=
  match v with
  | JStr s => if String.eqb s "" then d else s
  | _ => d
  end.

(** [String(n)] for an integral JS number. *)
Definition js_String_Z (n : Z) : string :=
  NilZero.string_of_int (Z.to_int n).

(* ------------------------------------------------------------------ *)
(** ** Audit blocks (src/blockchain.js, "Block blueprint") *)

(** The block objects stored under [vault_tamper_log].  Besides the
    blueprint fields, legacy records written by [storage.appendTamperLog]
    may carry [timestamp], [type] and [message], and a migrated block
    carries the legacy object under [_raw]. *)
#[warnings="-register-all"]
Inductive Block : Type := mkBlock {
  b_seq : option Z;
  b_ts : option string;
  b_timestamp : option string;
  b_nonce : option string;
  b_event : option string;
  b_type : option string;
  b_detail : option string;
  b_message : option string;
  b_id : option string;
  b_file : option string;
  b_hash : option string;
  b_custody : option string;
  b_signature : option string;
  b_prevHash : jsval;
  b_blockHash : option string;
  b_raw : option Block
}.

(** The empty object [{}]. *)
Definition empty_block : Block :=
  mkBlock None None None None None None None None None None None None None
    JUndef None None.

(** [String(b.seq || "")]: a seq of [0] or absent is [""]. *)
Definition seq_part (s : option Z) : string :=
  match s with
  | Some n => if Z.eqb n 0 then "" else js_String_Z n
  | None => ""
  end.

(** [canonicalStringForBlock] *)
Definition canonicalStringForBlock (b : Block) : string :=
  let parts :=
    [ seq_part (b_seq b);
      or_str (b_ts b) "";
      or_str (b_event b) "";
      or_str (b_detail b) "";
      or_str (b_id b) "";
      or_str (b_file b) "";
      or_str (b_hash b) "";
      or_str (b_signature b) "";
      or_js (b_prevHash b) "" ] in
  String.concat "|" parts.

(** The clock and random generator seen by one call: [now] is
    [new Date().toISOString()], [rnd i] is the [randomHex(8)] drawn for
    the [i]-th rebuilt block. *)
Record Env : Type := mkEnv {
  env_now : string;
  env_rnd : nat -> string
}.

(** Detail record pushed by [verifyChain] per block. *)
Record Detail : Type := mkDetail {
  d_seq : option Z;
  d_computed : string;
  d_stored : option string;
  d_prevStored : option string;
  d_prevMatches : bool;
  d_blockMatches : bool
}.

(** The object returned by [verifyChain]. *)
Record Verification : Type := mkVerification {
  v_ok : bool;
  v_breaks : nat;
  v_head : option string;
  v_details : list Detail
}.

Section Chain.

(** [sha256Hex]: expo-crypto's SHA-256 digest, lowercase hex. *)
Variable sha256Hex : string -> string.

(** [new Date(s)] followed by [toISOString()]: [None] when
    [isNaN(d.getTime())]. *)
Variable date_iso : string -> option string.

(** [computeBlockHash] *)
Definition computeBlockHash (b : Block) : string :=
  sha256Hex (canonicalStringForBlock b).

(** [!item || !item.blockHash || typeof item.prevHash === "undefined"] *)
Definition is_legacy (item : Block) : bool :=
  negb (truthy (b_blockHash item)) ||
  match b_prevHash item with JUndef => true | _ => false end.

(** The [tsISO] of the migration loop. *)
Definition migrate_ts (env : Env) (item : Block) : string :=
  let s := or_str (b_ts item) (or_str (b_timestamp item) "") in
  match date_iso s with
  | Some d => d
  | None => or_str (b_ts item) (or_str (b_timestamp item) (env_now env))
  end.

(** One iteration of the rebuild loop of [ensureMigrated]: block [i]
    (0-based) with the running [prevHash]. *)
Definition rebuild_block (env : Env) (i : nat) (prev : option string)
    (item : Block) : Block :=
  let block :=
    mkBlock (Some (Z.of_nat (i + 1)))
      (Some (migrate_ts env item))
      None
      (Some (or_str (b_nonce item) (env_rnd env i)))
      (Some (or_str (b_event item) (or_str (b_type item) "event")))
      None
      (Some (or_str (b_detail item) (or_str (b_message item) "")))
      None
      (b_id item) (b_file item) (b_hash item) (b_custody item)
      (b_signature item)
      (if truthy prev then match prev with Some h => JStr h | None => JNull end
       else JNull)
      None None in
  let computed := sha256Hex (canonicalStringForBlock block) in
  {| b_seq := b_seq block; b_ts := b_ts block; b_timestamp := None;
     b_nonce := b_nonce block; b_event := b_event block; b_type := None;
     b_detail := b_detail block; b_message := None; b_id := b_id block;
     b_file := b_file block; b_hash := b_hash block;
     b_custody := b_custody block; b_signature := b_signature block;
     b_prevHash := b_prevHash block; b_blockHash := Some computed;
     b_raw := Some (match b_raw item with Some r => r | None => item end) |}.

(** The [for] loop over the chronological items; the state is
    [(i, prevHash, rebuilt)]. *)
Definition rebuild_step (env : Env)
    (st : nat * option string * list Block) (item : Block)
    : nat * option string * list Block :=
  let '(i, prev, rebuilt) := st in
  let block := rebuild_block env i prev item in
  (S i, b_blockHash block, (rebuilt ++ [block])%list).

Definition rebuild (env : Env) (chronological : list Block) : list Block :=
  let '(_, _, rebuilt) :=
    fold_left (rebuild_step env) chronological (0%nat, None, []) in
  rebuilt.

(** [ensureMigrated] on the array read by [loadTamperLog]: [Some w] is
    the array written back, [None] is no write. *)
Definition ensureMigrated (env : Env) (raw : list Block) : option (list Block) :=
  match raw with
  | [] => None
  | _ =>
    if existsb is_legacy raw then
      Some (rev (rebuild env (rev raw)))
    else None
  end.

(** The stored log after [ensureMigrated]. *)
Definition migrated (env : Env) (raw : list Block) : list Block :=
  match ensureMigrated env raw with Some w => w | None => raw end.

(** The [for (const it of existing)] loop computing [lastSeq]. *)
Definition last_seq (existing : list Block) : Z :=
  fold_left (fun acc it =>
    match b_seq it with
    | Some n => if Z.ltb acc n then n else acc
    | None => acc
    end) existing 0%Z.

(** [existing.reduce(..., null)] choosing the item with the largest seq. *)
Definition max_seq_item (existing : list Block) : option Block :=
  fold_left (fun acc cur =>
    match acc with
    | None => Some cur
    | Some a =>
      match b_seq cur with
      | Some n =>
        if Z.ltb (match b_seq a with Some m => m | None => 0%Z end) n
        then Some cur else Some a
      | None => Some a
      end
    end) existing None.

(** [appendEvent(ev)] with [ts] ([new Date().toISOString()]) and [nonce]
    ([randomHex(8)]) supplied; [env] is the clock and generator seen by the
    [ensureMigrated] call.  Returns the saved block and the stored log
    (newest-first) after [storage.appendTamperLog]. *)
Definition appendEvent (env : Env) (ts nonce : string) (ev : Block)
    (stored : list Block) : Block * list Block :=
  let existing := migrated env stored in
  let lastSeq := last_seq existing in
  let lastBlockHash :=
    match existing with
    | [] => None
    | _ =>
      match max_seq_item existing with
      | Some m => if truthy (b_blockHash m) then b_blockHash m else None
      | None => None
      end
    end in
  let block :=
    mkBlock (Some (lastSeq + 1)%Z) (Some ts) None (Some nonce)
      (Some (or_str (b_event ev) (or_str (b_type ev) "event")))
      None
      (Some (or_str (b_detail ev) (or_str (b_message ev) "")))
      None
      (b_id ev) (b_file ev) (b_hash ev) (b_custody ev) (b_signature ev)
      (if truthy lastBlockHash then
         match lastBlockHash with Some h => JStr h | None => JNull end
       else JNull)
      None None in
  let computed := sha256Hex (canonicalStringForBlock block) in
  let block :=
    {| b_seq := b_seq block; b_ts := b_ts block; b_timestamp := None;
       b_nonce := b_nonce block; b_event := b_event block; b_type := None;
       b_detail := b_detail block; b_message := None; b_id := b_id block;
       b_file := b_file block; b_hash := b_hash block;
       b_custody := b_custody block; b_signature := b_signature block;
       b_prevHash := b_prevHash block; b_blockHash := Some computed;
       b_raw := None |} in
  (block, block :: existing).

(** Loop state of [verifyChain]: [(prev, breaks, details)]. *)
Definition vstate : Type := (option string * nat * list Detail)%type.

(** [prevMatches]: [(r.prevHash || "") === (prev || "")]. *)
Definition prev_matches (prev : option string) (r : Block) : bool :=
  String.eqb (or_js (b_prevHash r) "") (or_str prev "").

(** [blockMatches]: [(r.blockHash || "") === (computed || "")]. *)
Definition block_matches (r : Block) : bool :=
  String.eqb (or_str (b_blockHash r) "") (or_str (Some (computeBlockHash r)) "").

(** The detail object pushed for [r]. *)
Definition verify_detail (prev : option string) (r : Block) : Detail :=
  mkDetail (b_seq r) (computeBlockHash r)
    (if truthy (b_blockHash r) then b_blockHash r else None)
    (match b_prevHash r with
     | JStr s => if String.eqb s "" then None else Some s
     | _ => None end)
    (prev_matches prev r) (block_matches r).

(** [prev = r.blockHash || computed || null]. *)
Definition next_prev (r : Block) : option string :=
  if truthy (b_blockHash r) then b_blockHash r
  else if truthy (Some (computeBlockHash r)) then Some (computeBlockHash r)
  else None.

(** One iteration of the [verifyChain] loop. *)
Definition verify_step (st : vstate) (r : Block) : vstate :=
  let '(prev, breaks, details) := st in
  (next_prev r,
   (if prev_matches prev r && block_matches r then breaks else S breaks),
   (details ++ [verify_detail prev r])%list).

(** [loadChain()]: migrate, then read chronologically. *)
Definition loadChain (env : Env) (stored : list Block) : list Block * list Block :=
  let stored := migrated env stored in
  (rev stored, stored).

(** The verification of a chronological chain (the part of
    [verifyChain] after [loadChain]). *)
Definition verify_walk (chain : list Block) : Verification :=
  match chain with
  | [] => mkVerification true 0 None []
  | _ =>
    let '(prev, breaks, details) := fold_left verify_step chain (None, 0%nat, []) in
    mkVerification (Nat.eqb breaks 0) breaks prev details
  end.

(** [verifyChain()]: [env1] and [env2] are seen by the two
    [ensureMigrated] calls (its own and the one in [loadChain]).  Returns
    the verification and the stored log afterwards. *)
Definition verifyChain (env1 env2 : Env) (stored : list Block)
    : Verification * list Block :=
  let stored := migrated env1 stored in
  let '(chain, stored) := loadChain env2 stored in
  (verify_walk chain, stored).

(** [n] successive [appendEvent] calls, each with its own clock, nonce and
    event. *)
Fixpoint appendEvents (calls : list (Env * string * string * Block))
    (stored : list Block) : list Block :=
  match calls with
  | [] => stored
  | (env, ts, nonce, ev) :: rest =>
    appendEvents rest (snd (appendEvent env ts nonce ev stored))
  end.

End Chain.

(* ------------------------------------------------------------------ *)
(** ** Predicates on the stored log *)

(** The 9 fields of the canonical string agree. *)
Definition same_canon_fields (b1 b2 : Block) : Prop :=
  b_seq b1 = b_seq b2 /\ b_ts b1 = b_ts b2 /\ b_event b1 = b_event b2 /\
  b_detail b1 = b_detail b2 /\ b_id b1 = b_id b2 /\ b_file b1 = b_file b2 /\
  b_hash b1 = b_hash b2 /\ b_signature b1 = b_signature b2 /\
  b_prevHash b1 = b_prevHash b2.

(** A chronological chain whose first block has [prevHash] [p] and whose
    every later block points at the stored [blockHash] of its
    predecessor. *)
Fixpoint linked (p : jsval) (c : list Block) : Prop :=
  match c with
  | [] => True
  | b :: t => b_prevHash b = p /\ exists h, b_blockHash b = Some h /\ linked (JStr h) t
  end.

(** [blockHash] of the chronologically last block ([null] when empty). *)
Definition head_hash (stored : list Block) : option string :=
  match stored with [] => None | b :: _ => b_blockHash b end.

(** A [jsval] pointer at a block's stored hash. *)
Definition hash_ptr (o : option string) : jsval :=
  match o with Some h => JStr h | None => JUndef end.

(** The [prevHash] a block appended on top of [stored] must carry. *)
Definition prev_of (stored : list Block) : jsval :=
  match stored with [] => JNull | b :: _ => hash_ptr (b_blockHash b) end.

(** Set the [detail] field of a block. *)
Definition set_detail (b : Block) (d : string) : Block :=
  {| b_seq := b_seq b; b_ts := b_ts b; b_timestamp := b_timestamp b;
     b_nonce := b_nonce b; b_event := b_event b; b_type := b_type b;
     b_detail := Some d; b_message := b_message b; b_id := b_id b;
     b_file := b_file b; b_hash := b_hash b; b_custody := b_custody b;
     b_signature := b_signature b; b_prevHash := b_prevHash b;
     b_blockHash := b_blockHash b; b_raw := b_raw b |}.

(** Forget [custody] and [nonce]. *)
Definition erase_cn (b : Block) : Block :=
  {| b_seq := b_seq b; b_ts := b_ts b; b_timestamp := b_timestamp b;
     b_nonce := None; b_event := b_event b; b_type := b_type b;
     b_detail := b_detail b; b_message := b_message b; b_id := b_id b;
     b_file := b_file b; b_hash := b_hash b; b_custody := None;
     b_signature := b_signature b; b_prevHash := b_prevHash b;
     b_blockHash := b_blockHash b; b_raw := b_raw b |}.

(** Forget [custody], [nonce] and [_raw]. *)
Definition erase_cnr (b : Block) : Block :=
  {| b_seq := b_seq b; b_ts := b_ts b; b_timestamp := b_timestamp b;
     b_nonce := None; b_event := b_event b; b_type := b_type b;
     b_detail := b_detail b; b_message := b_message b; b_id := b_id b;
     b_file := b_file b; b_hash := b_hash b; b_custody := None;
     b_signature := b_signature b; b_prevHash := b_prevHash b;
     b_blockHash := b_blockHash b; b_raw := None |}.

(** A verification detail where both checks passed. *)
Definition passes (d : Detail) : bool := d_prevMatches d && d_blockMatches d.

(* ------------------------------------------------------------------ *)
(** ** Codecs used by src/src/crypto.js *)

(** One hex digit, lowercase ([Number.prototype.toString(16)]). *)
Definition hex_digit (n : nat) : ascii :=
  if Nat.ltb n 10 then ascii_of_nat (48 + n) else ascii_of_nat (87 + n).

(** [("00" + b.toString(16)).slice(-2)] *)
Definition byte_hex (b : Byte.byte) : string :=
  String (hex_digit (Byte.to_nat b / 16)) (String (hex_digit (Byte.to_nat b mod 16)) "").

(** [bytesToHex]; also [WordArray.toString(CryptoJS.enc.Hex)]. *)
Fixpoint bytesToHex (l : list Byte.byte) : string :=
  match l with
  | [] => ""
  | b :: t => byte_hex b ++ bytesToHex t
  end.

(** Value of a hex digit for [parseInt(_, 16)]. *)
Definition hex_value (c : ascii) : option nat :=
  let n := nat_of_ascii c in
  if (Nat.leb 48 n) && (Nat.leb n 57) then Some (n - 48)
  else if (Nat.leb 97 n) && (Nat.leb n 102) then Some (n - 87)
  else if (Nat.leb 65 n) && (Nat.leb n 70) then Some (n - 55)
  else None.

Definition byte_of_nat (n : nat) : Byte.byte :=
  match Byte.of_nat n with Some b => b | None => Byte.x00 end.

(** [CryptoJS.pad.Pkcs7.pad] with 16-byte blocks. *)
Definition pkcs7_pad (m : list Byte.byte) : list Byte.byte :=
  let n := 16 - length m mod 16 in
  (m ++ repeat (byte_of_nat n) n)%list.

(** [CryptoJS.pad.Pkcs7.unpad]: reads the last byte and shortens by that
    many bytes, with no check of the padding ([sigBytes] going negative
    leaves nothing). *)
Definition pkcs7_unpad (d : list Byte.byte) : list Byte.byte :=
  let n := Byte.to_nat (last d Byte.x00) in
  firstn (length d - n) d.

(** [parseInt(s, 10)]: leading white space, an optional sign, then the
    longest run of decimal digits; [None] is [NaN]. *)
Fixpoint decimal_prefix (s : string) (acc : Z) (seen : bool) : option Z :=
  match s with
  | String c r =>
    let n := nat_of_ascii c in
    if (Nat.leb 48 n) && (Nat.leb n 57)
    then decimal_prefix r (acc * 10 + Z.of_nat (n - 48))%Z true
    else if seen then Some acc else None
  | EmptyString => if seen then Some acc else None
  end.

(** White space and line terminators of JS among the 8-bit characters,
    as skipped by [parseInt] and [String.prototype.trim]. *)
Definition is_js_space (c : ascii) : bool :=
  (c =? " ")%char || (c =? "009")%char || (c =? "010")%char || (c =? "011")%char
  || (c =? "012")%char || (c =? "013")%char || (c =? "160")%char.

Fixpoint trim_start (s : string) : string :=
  match s with
  | String c r => if is_js_space c then trim_start r else s
  | EmptyString => s
  end.

Definition js_parseInt10 (s : string) : option Z :=
  match trim_start s with
  | String c r =>
    if (c =? "-")%char then option_map Z.opp (decimal_prefix r 0 false)
    else if (c =? "+")%char then decimal_prefix r 0 false
    else decimal_prefix (String c r) 0 false
  | EmptyString => None
  end.

(** The longest run of hex digits at the start of [s], [None] when
    there is none. *)
Fixpoint hex_prefix (s : string) (acc : Z) (seen : bool) : option Z :=
  match s with
  | String c r =>
    match hex_value c with
    | Some n => hex_prefix r (acc * 16 + Z.of_nat n)%Z true
    | None => if seen then Some acc else None
    end
  | EmptyString => if seen then Some acc else None
  end.

(** [parseInt(s, 16)]: leading white space, an optional sign, an optional
    [0x]/[0X] prefix, then the longest run of hex digits; [None] is [NaN]. *)
Definition parseInt16_digits (s : string) : option Z :=
  match s with
  | String c0 (String c1 r) =>
    if (c0 =? "0")%char && ((c1 =? "x")%char || (c1 =? "X")%char)
    then hex_prefix r 0 false else hex_prefix s 0 false
  | _ => hex_prefix s 0 false
  end.

Definition js_parseInt16 (s : string) : option Z :=
  match trim_start s with
  | String c r =>
    if (c =? "-")%char then option_map Z.opp (parseInt16_digits r)
    else if (c =? "+")%char then parseInt16_digits r
    else parseInt16_digits (String c r)
  | EmptyString => None
  end.

(** A JS array of 32-bit words, each word kept as its unsigned bit
    pattern (a [Z] in [[0, 2^32)]); a hole or an index past the end reads
    as [undefined], which the bit operators take as [0]. *)

(** [words[j] |= x]; writing past the end leaves holes before [j]. *)
Fixpoint or_at (j : nat) (x : Z) (words : list Z) : list Z :=
  match j, words with
  | O, w :: ws => Z.lor w x :: ws
  | O, [] => [Z.lor 0 x]
  | S j', w :: ws => w :: or_at j' x ws
  | S j', [] => 0%Z :: or_at j' x []
  end.

(** [v << s] for an integer [v] ([ToInt32], then the shift on 32 bits). *)
Definition js_shl32 (v s : Z) : Z := (Z.shiftl v (s mod 32) mod 2 ^ 32)%Z.

(** [parseInt(_, 16)] as an operand of [<<]: [NaN] becomes [0]. *)
Definition parseInt16_int (s : string) : Z :=
  match js_parseInt16 s with Some z => z | None => 0%Z end.

(** The loop of [CryptoJS.enc.Hex.parse] from position [i]:
    [words[i >>> 3] |= parseInt(hexStr.substr(i, 2), 16) << (24 - (i % 8) * 4)],
    [substr] giving one character at an odd end. *)
Fixpoint hex_parse_loop (i : nat) (s : string) (words : list Z) : list Z :=
  match s with
  | String c1 (String c2 rest) =>
    hex_parse_loop (i + 2) rest
      (or_at (i / 8) (js_shl32 (parseInt16_int (String c1 (String c2 ""))) (24 - Z.of_nat (i mod 8) * 4))
         words)
  | String c1 EmptyString =>
    or_at (i / 8) (js_shl32 (parseInt16_int (String c1 "")) (24 - Z.of_nat (i mod 8) * 4)) words
  | EmptyString => words
  end.

(** A CryptoJS [WordArray] built by [Hex.parse]: its [sigBytes] is
    [hexStr.length / 2], kept here as the number of hex digits
    [wa_nibbles] because it is fractional for an odd length. *)
Record WordArray : Type := mkWordArray { wa_words : list Z; wa_nibbles : nat }.

(** [hexToWordArray] ([CryptoJS.enc.Hex.parse]) *)
Definition hexToWordArray (hexStr : string) : WordArray :=
  mkWordArray (hex_parse_loop 0 hexStr []) (String.length hexStr).

Definition byte_of_Z (z : Z) : Byte.byte := byte_of_nat (Z.to_nat z).

(** Byte [i] of the words: [(words[i >>> 2] >>> (24 - (i % 4) * 8)) & 0xff]. *)
Definition word_byte (words : list Z) (i : nat) : Z :=
  Z.land (Z.shiftr (nth (i / 4) words 0%Z) (24 - Z.of_nat (i mod 4) * 8)) 255.

(** The bytes at [i < sigBytes], read by [Hex.stringify]; a trailing half
    byte ([sigBytes] = k + 0.5) is read as a whole byte. *)
Definition wa_bytes (wa : WordArray) : list Byte.byte :=
  map (fun i => byte_of_Z (word_byte (wa_words wa) i)) (seq 0 ((wa_nibbles wa + 1) / 2)).

(** [wordArrayToHex] ([Hex.stringify]): each byte [bite] printed as
    [(bite >>> 4).toString(16)] then [(bite & 0x0f).toString(16)], which
    is [byte_hex bite]. *)
Definition wordArrayToHex (wa : WordArray) : string := bytesToHex (wa_bytes wa).

(** The bytes of [hexToWordArray hexStr], as the byte-list primitives of
    this model take a word array; the vault only parses even-length
    strings printed by [bytesToHex]. *)
Definition hexToBytes (hexStr : string) : list Byte.byte := wa_bytes (hexToWordArray hexStr).

(** The operands [parseInt(hexStr.substr(i, 2), 16)] of [Hex.parse], in
    order. *)
Fixpoint hex_chunks (s : string) : list Z :=
  match s with
  | String c1 (String c2 rest) => parseInt16_int (String c1 (String c2 "")) :: hex_chunks rest
  | String c1 EmptyString => [parseInt16_int (String c1 "")]
  | EmptyString => []
  end.

(* ------------------------------------------------------------------ *)
(** ** Stored state (src/src/storage.js) *)

(** An entry as [handleSaveNewEntry] builds it. *)
Record Entry : Type := mkEntry {
  e_id : string; e_iv : string; e_ciphertext : string; e_hmac : string; e_timestamp : string }.

(** The fields an [updateEntry] call may carry ([{...entries[index], ...updatedEntry}]). *)
Record PartialEntry : Type := mkPartialEntry {
  p_id : option string; p_iv : option string; p_ciphertext : option string;
  p_hmac : option string; p_timestamp : option string }.

(** A tamper-log item [{ ts, event, detail?, id? }] of [app/index.tsx]. *)
Record LogItem : Type := mkLog {
  l_ts : string; l_event : string; l_detail : option string; l_id : option string }.

(** SecureStore keys [vault_wrapped_key] (the JSON [{wrapped, wrapIvHex}]),
    [vault_salt], [vault_iter], [vault_created], and AsyncStorage keys
    [vault_entries], [vault_tamper_log], [vault_meta] (its [biometricEnabled]);
    [None] is an absent key. *)
Record Store : Type := mkStore {
  ss_wrapped : option (string * string);
  ss_salt : option string;
  ss_iter : option string;
  ss_created : option string;
  as_entries : option (list Entry);
  as_tamper : option (list LogItem);
  as_meta : option bool }.

Definition set_entries (v : option (list Entry)) (st : Store) : Store :=
  mkStore (ss_wrapped st) (ss_salt st) (ss_iter st) (ss_created st) v (as_tamper st) (as_meta st).

Definition set_tamper (v : option (list LogItem)) (st : Store) : Store :=
  mkStore (ss_wrapped st) (ss_salt st) (ss_iter st) (ss_created st) (as_entries st) v (as_meta st).

Definition set_meta (v : option bool) (st : Store) : Store :=
  mkStore (ss_wrapped st) (ss_salt st) (ss_iter st) (ss_created st) (as_entries st) (as_tamper st) v.

Definition set_secure (w : option (string * string)) (salt iter created : option string)
    (st : Store) : Store :=
  mkStore w salt iter created (as_entries st) (as_tamper st) (as_meta st).

Definition loadEntries (st : Store) : list Entry :=
  match as_entries st with Some l => l | None => [] end.

Definition saveEntries (entries : list Entry) (st : Store) : Store :=
  set_entries (Some entries) st.

(** [entries.unshift(entry)] *)
Definition appendEntry (entry : Entry) (st : Store) : Store :=
  saveEntries (entry :: loadEntries st) st.

Fixpoint findIndex {A} (f : A -> bool) (l : list A) : option nat :=
  match l with
  | [] => None
  | x :: t => if f x then Some 0 else option_map S (findIndex f t)
  end.

(** [entries[index] = v] for an index inside the array. *)
Fixpoint list_set {A} (i : nat) (v : A) (l : list A) : list A :=
  match l, i with
  | [], _ => []
  | _ :: t, 0 => v :: t
  | x :: t, S j => x :: list_set j v t
  end.

Definition merge_entry (e : Entry) (u : PartialEntry) : Entry :=
  let pick o d := match o with Some v => v | None => d end in
  mkEntry (pick (p_id u) (e_id e)) (pick (p_iv u) (e_iv e)) (pick (p_ciphertext u) (e_ciphertext e))
          (pick (p_hmac u) (e_hmac e)) (pick (p_timestamp u) (e_timestamp e)).

Definition updateEntry (id : string) (updatedEntry : PartialEntry) (st : Store) : Store :=
  let entries := loadEntries st in
  match findIndex (fun entry => String.eqb (e_id entry) id) entries with
  | Some index =>
    match nth_error entries index with
    | Some old => saveEntries (list_set index (merge_entry old updatedEntry) entries) st
    | None => st
    end
  | None => st
  end.

Definition clearAllEntries (st : Store) : Store := set_entries None st.

Definition loadTamperLog (st : Store) : list LogItem :=
  match as_tamper st with Some l => l | None => [] end.

Definition appendTamperLog (eventObj : LogItem) (st : Store) : Store :=
  set_tamper (Some (eventObj :: loadTamperLog st)) st.

Definition PBKDF2_ITERATIONS : Z := 100000.

Inductive CreateOutcome : Type := PassphraseMismatch | WeakPassphrase | VaultCreated.
Inductive UnlockOutcome : Type :=
  | NotInitialized | BiometricFailed | WrongPassphrase | Unlocked (masterHex : string).
Inductive ViewOutcome : Type :=
  | ViewLocked | IntegrityFailure | Viewed (plain : string) | DecryptFailed.

(** ** src/src/crypto.js and the handlers of src/app/index.tsx

    The CryptoJS primitives on byte strings: PBKDF2-SHA256 with 8 words of
    output (the iteration count is [None] for [NaN]), raw AES-CBC on whole
    blocks, Base64, UTF-8 ([None] when the bytes are not UTF-8: CryptoJS
    throws), SHA-256 and HMAC-SHA256 of a JS string. *)
Section Vault.
Variable pbkdf2 : string -> list Byte.byte -> option Z -> list Byte.byte.
Variables aes_cbc_encrypt aes_cbc_decrypt :
  list Byte.byte -> list Byte.byte -> list Byte.byte -> list Byte.byte.
Variable base64_stringify : list Byte.byte -> string.
Variable base64_parse : string -> list Byte.byte.
Variable utf8_parse : string -> list Byte.byte.
Variable utf8_stringify : list Byte.byte -> option string.
Variable sha256 : list Byte.byte -> list Byte.byte.
Variable hmac_sha256 : list Byte.byte -> string -> list Byte.byte.

Definition deriveKeyPBKDF2 (passphrase saltHex : string) (iterations : option Z) : list Byte.byte :=
  pbkdf2 passphrase (hexToBytes saltHex) iterations.

Definition wrapMasterKey (masterKeyHex : string) (wrapKeyWA : list Byte.byte) (wrapIvHex : string)
    : string :=
  base64_stringify
    (aes_cbc_encrypt wrapKeyWA (hexToBytes wrapIvHex) (pkcs7_pad (hexToBytes masterKeyHex))).

Definition unwrapMasterKey (wrappedBase64 : string) (wrapKeyWA : list Byte.byte) (wrapIvHex : string)
    : string :=
  bytesToHex
    (pkcs7_unpad (aes_cbc_decrypt wrapKeyWA (hexToBytes wrapIvHex) (base64_parse wrappedBase64))).

Definition hmac_input (iv ciphertext ts : string) : string := iv ++ "|" ++ ciphertext ++ "|" ++ ts.

(** [encryptEntryWithMaster]; [ivBytes] are the 16 random bytes behind
    [randomHex(16)] and [ts] is [new Date().toISOString()]. Returns
    [(ivHex, ciphertextB64, hmac, ts)]. *)
Definition encryptEntryWithMaster (masterKeyHex plaintext : string) (ivBytes : list Byte.byte)
    (ts : string) : string * string * string * string :=
  let ivHex := bytesToHex ivBytes in
  let keyWA := hexToBytes masterKeyHex in
  let ivWA := hexToBytes ivHex in
  let ciphertextB64 := base64_stringify (aes_cbc_encrypt keyWA ivWA (pkcs7_pad (utf8_parse plaintext))) in
  let hmacKeyWA := sha256 (hexToBytes masterKeyHex) in
  let hmacInput := hmac_input ivHex ciphertextB64 ts in
  let hmac := bytesToHex (hmac_sha256 hmacKeyWA hmacInput) in
  (ivHex, ciphertextB64, hmac, ts).

Definition verifyEntryHMAC (masterKeyHex : string) (entry : Entry) : bool :=
  let hmacKeyWA := sha256 (hexToBytes masterKeyHex) in
  let hmacInput := hmac_input (e_iv entry) (e_ciphertext entry) (e_timestamp entry) in
  let recomputed := bytesToHex (hmac_sha256 hmacKeyWA hmacInput) in
  String.eqb recomputed (e_hmac entry).

Definition decryptEntryWithMaster (masterKeyHex : string) (entry : Entry) : option string :=
  let keyWA := hexToBytes masterKeyHex in
  let ivWA := hexToBytes (e_iv entry) in
  utf8_stringify (pkcs7_unpad (aes_cbc_decrypt keyWA ivWA (base64_parse (e_ciphertext entry)))).

(** [handleCreateVault]: [master], [salt] and [wrapIv] are the bytes of
    [randomHex(32)], [randomHex(16)], [randomHex(16)]; [now] the ISO time. *)
Definition handleCreateVault (setupPassA setupPassB : string)
    (master salt wrapIv : list Byte.byte) (now : string) (st : Store) : CreateOutcome * Store :=
  if String.eqb setupPassA "" || negb (String.eqb setupPassA setupPassB) then (PassphraseMismatch, st)
  else if Nat.ltb (String.length setupPassA) 12 then (WeakPassphrase, st)
  else
    let masterHex := bytesToHex master in
    let saltHex := bytesToHex salt in
    let wrapIvHex := bytesToHex wrapIv in
    let wrapKeyWA := deriveKeyPBKDF2 setupPassA saltHex (Some PBKDF2_ITERATIONS) in
    let wrapped := wrapMasterKey masterHex wrapKeyWA wrapIvHex in
    let st := set_secure (Some (wrapped, wrapIvHex)) (Some saltHex)
                (Some (js_String_Z PBKDF2_ITERATIONS)) (Some now) st in
    let st := saveEntries [] st in
    let st := set_tamper (Some []) st in
    let st := set_meta (Some false) st in
    let st := appendTamperLog (mkLog now "vault_created" None None) st in
    (VaultCreated, st).

Definition count_ok (masterHex : string) (loaded : list Entry) : nat :=
  length (filter (verifyEntryHMAC masterHex) loaded).

(** [verifyIntegrity] as called from [handleUnlock]. *)
Definition verifyIntegrity (masterHex now : string) (st : Store) : Store :=
  let loaded := loadEntries st in
  let okCount := count_ok masterHex loaded in
  let failCount := length loaded - okCount in
  appendTamperLog
    (mkLog now "integrity_check"
       (Some (js_String_Z (Z.of_nat okCount) ++ " ok, " ++ js_String_Z (Z.of_nat failCount) ++ " fail"))
       None) st.

(** [handleUnlock]; [bio] is [(hasHardwareAsync(), authenticateAsync().success)]. *)
Definition handleUnlock (unlockPass : string) (bio : bool * bool) (now : string) (st : Store)
    : UnlockOutcome * Store :=
  match ss_wrapped st, ss_salt st, ss_iter st with
  | Some (wrapped, wrapIvHex), Some saltHex, Some iterStr =>
    if String.eqb saltHex "" || String.eqb iterStr "" then (NotInitialized, st)
    else
      let iter := js_parseInt10 iterStr in
      let biometricEnabled := match as_meta st with Some b => b | None => false end in
      if biometricEnabled && fst bio && negb (snd bio) then
        (BiometricFailed,
         appendTamperLog (mkLog now "unlock_failed" (Some "biometric_failed") None) st)
      else
        let wrapKeyWA := deriveKeyPBKDF2 unlockPass saltHex iter in
        let masterHex := unwrapMasterKey wrapped wrapKeyWA wrapIvHex in
        if String.eqb masterHex "" || negb (Nat.eqb (String.length masterHex) 64) then
          (WrongPassphrase,
           appendTamperLog (mkLog now "unlock_failed" (Some "wrong_passphrase") None) st)
        else
          let st := verifyIntegrity masterHex now st in
          (Unlocked masterHex, appendTamperLog (mkLog now "unlocked" (Some "success") None) st)
  | _, _, _ => (NotInitialized, st)
  end.

(** [handleViewEntry]; [masterKeyHex] is the React state. *)
Definition handleViewEntry (masterKeyHex : option string) (entry : Entry) (now : string)
    (st : Store) : ViewOutcome * Store :=
  match masterKeyHex with
  | None => (ViewLocked, st)
  | Some k =>
    if String.eqb k "" then (ViewLocked, st)
    else if negb (verifyEntryHMAC k entry) then
      (IntegrityFailure,
       appendTamperLog (mkLog now "entry_integrity_fail" None (Some (e_id entry))) st)
    else
      match decryptEntryWithMaster k entry with
      | Some plain =>
        (Viewed plain, appendTamperLog (mkLog now "entry_viewed" None (Some (e_id entry))) st)
      | None =>
        (DecryptFailed, appendTamperLog (mkLog now "entry_decrypt_fail" None (Some (e_id entry))) st)
      end
  end.

End Vault.

(** [performPanicWipe]; [junk p e] is the [randomHex(len)] drawn for entry
    [e] in pass [p]. *)
Definition junk_pass (current : list Entry) (junk : nat -> Entry -> string) (now : string)
    (st : Store) (p : nat) : Store :=
  saveEntries
    (map (fun e => let junkHex := junk p e in
                   mkEntry (e_id e) (substring 0 32 junkHex) junkHex junkHex now) current) st.

Definition performPanicWipe (junk : nat -> Entry -> string) (now : string) (st : Store) : Store :=
  let current := loadEntries st in
  let passes := 3 in
  let st := fold_left (junk_pass current junk now) (seq 0 passes) st in
  let st := clearAllEntries st in
  let checkWrapped := ss_wrapped st in
  let checkEntries := loadEntries st in
  let st :=
    if match checkWrapped with Some _ => true | None => false end
       || Nat.ltb 0 (length checkEntries) then
      appendTamperLog (mkLog now "panic_wipe_failed" (Some "Data still exists after wipe") None) st
    else st in
  appendTamperLog (mkLog now "panic_wiped" None None) st.

(** ** A computable instance of the primitives

    Used to run the handlers on concrete inputs: a passphrase-bytes "KDF",
    a cycled-key XOR stream cipher, hex in place of Base64, ASCII in place
    of UTF-8, and a transparent "HMAC". Each satisfies the round-trip
    contracts stated for the real primitives below. *)
Module ToyCrypto.

Definition xor8 (a b : bool * (bool * (bool * (bool * (bool * (bool * (bool * bool)))))))
    : bool * (bool * (bool * (bool * (bool * (bool * (bool * bool)))))) :=
  let '(a0, (a1, (a2, (a3, (a4, (a5, (a6, a7))))))) := a in
  let '(b0, (b1, (b2, (b3, (b4, (b5, (b6, b7))))))) := b in
  (xorb a0 b0, (xorb a1 b1, (xorb a2 b2, (xorb a3 b3,
   (xorb a4 b4, (xorb a5 b5, (xorb a6 b6, xorb a7 b7))))))).

Definition bxor (a b : Byte.byte) : Byte.byte :=
  Byte.of_bits (xor8 (Byte.to_bits a) (Byte.to_bits b)).

Definition key_byte (k : list Byte.byte) (i : nat) : Byte.byte :=
  nth (i mod length k) k Byte.x00.

Fixpoint xor_stream (k : list Byte.byte) (i : nat) (m : list Byte.byte) : list Byte.byte :=
  match m with
  | [] => []
  | b :: t => bxor b (key_byte k i) :: xor_stream k (S i) t
  end.

Definition ascii_bytes (s : string) : list Byte.byte :=
  map byte_of_ascii (list_ascii_of_string s).

Definition kdf (pass : string) (_ : list Byte.byte) (_ : option Z) : list Byte.byte :=
  ascii_bytes pass.

Definition enc (k _ : list Byte.byte) (m : list Byte.byte) : list Byte.byte := xor_stream k 0 m.
Definition dec (k _ : list Byte.byte) (c : list Byte.byte) : list Byte.byte := xor_stream k 0 c.

Definition b64s (l : list Byte.byte) : string := bytesToHex l.
Definition b64p (s : string) : list Byte.byte := hexToBytes s.

Definition u8p (s : string) : list Byte.byte := ascii_bytes s.
Definition u8s (l : list Byte.byte) : option string :=
  Some (string_of_list_ascii (map ascii_of_byte l)).

Definition sha (l : list Byte.byte) : list Byte.byte := l.
Definition hmac (k : list Byte.byte) (m : string) : list Byte.byte := (k ++ ascii_bytes m)%list.

Definition store0 : Store := mkStore None None None None None None None.

Definition master : list Byte.byte := repeat Byte.x2a 32.
Definition salt : list Byte.byte := repeat Byte.x11 16.
Definition wrapIv : list Byte.byte := repeat Byte.x07 16.

Definition sha_hex (s : string) : string := String "h" s.
Definition no_date (_ : string) : option string := None.
Definition env0 : Env := mkEnv "2024-01-01T00:00:00.000Z" (fun _ => "0123456789abcdef").

Definition event (name : string) : Block :=
  mkBlock None None None None (Some name) None None None None None None None None JUndef None None.

Definition calls3 : list (Env * string * string * Block) :=
  [(env0, "t1", "n1", event "vault_created"); (env0, "t2", "n2", event "unlocked");
   (env0, "t3", "n3", event "entry_added")].

Definition chain3 : list Block := appendEvents sha_hex no_date calls3 [].

Definition set_custody (c : string) (b : Block) : Block :=
  {| b_seq := b_seq b; b_ts := b_ts b; b_timestamp := b_timestamp b;
     b_nonce := Some "other"; b_event := b_event b; b_type := b_type b;
     b_detail := b_detail b; b_message := b_message b; b_id := b_id b;
     b_file := b_file b; b_hash := b_hash b; b_custody := Some c;
     b_signature := b_signature b; b_prevHash := b_prevHash b;
     b_blockHash := b_blockHash b; b_raw := b_raw b |}.

Definition legacy_log : list Block :=
  [mkBlock None (Some "t2") None None (Some "unlocked") None None None None None None None None
     JUndef None None;
   mkBlock None (Some "t1") None None (Some "vault_created") None None None None None None None None
     JUndef None None].

Definition entry1 : Entry := mkEntry "1700000000000-aa11bb" "aa11bb" "Y3Qx" "h1" "t1".
Definition entry2 : Entry := mkEntry "1690000000000-cc22dd" "cc22dd" "Y3Qy" "h2" "t2".
Definition store2 : Store := saveEntries [entry1; entry2] store0.

(** A string with the low bit of its first character flipped. *)
Definition flip_first (s : string) : string :=
  match s with
  | String c r => String (ascii_of_nat (Nat.lxor (nat_of_ascii c) 1)) r
  | EmptyString => EmptyString
  end.

End ToyCrypto.

(* ------------------------------------------------------------------ *)
(** ** The rest of src/blockchain.js: head fingerprint and export *)

Section ChainExport.
Variable sha256Hex : string -> string.
Variable date_iso : string -> option string.

(** [getHeadFingerprint()]: the last chronological block's [blockHash]
    ([|| null]); returns the stored log afterwards as well. *)
Definition getHeadFingerprint (env : Env) (stored : list Block) : option string * list Block :=
  let '(chain, stored) := loadChain sha256Hex date_iso env stored in
  match chain with
  | [] => (None, stored)
  | _ =>
    let last_block := last chain empty_block in
    (if truthy (b_blockHash last_block) then b_blockHash last_block else None, stored)
  end.

(** [now.replace(/[:.]/g, "-")] *)
Fixpoint replace_colon_dot (s : string) : string :=
  match s with
  | EmptyString => EmptyString
  | String c r =>
    String (if (c =? ":")%char || (c =? ".")%char then "-"%char else c) (replace_colon_dot r)
  end.

(** The manifest object of [exportChainFiles]. *)
Record Manifest : Type := mkManifest {
  m_exportedAt : string; m_timezone : string;
  m_alg_hash : string; m_alg_encryption : string; m_alg_hmac : string;
  m_count : nat; m_chainHead : option string; m_ok : bool; m_breaks : nat }.

(** The object [{ jsonlPath, manifestPath, chainHead }] it returns. *)
Record ExportResult : Type := mkExportResult {
  x_jsonlPath : string; x_manifestPath : string; x_chainHead : option string }.

(** [exportChainFiles()]: [json_block] is [JSON.stringify] of a block,
    [manifest_json] is [JSON.stringify(manifest, null, 2)]; [env1] is seen
    by [loadChain], [env2], [env3] by [verifyChain].  [None] is the throw
    when no directory is available; otherwise the result, the files
    written (path, contents) in order, and the stored log afterwards. *)
Definition exportChainFiles (json_block : Block -> string) (manifest_json : Manifest -> string)
    (documentDirectory cacheDirectory : option string) (now : string) (env1 env2 env3 : Env)
    (stored : list Block) : option (ExportResult * list (string * string) * list Block) :=
  let base := "audit_" ++ replace_colon_dot now in
  let dir := if truthy documentDirectory then documentDirectory else cacheDirectory in
  if negb (truthy dir) then None
  else
    let d := or_str dir "" in
    let '(chain, stored) := loadChain sha256Hex date_iso env1 stored in
    let lines := map json_block chain in
    let jsonlPath := d ++ base ++ ".jsonl" in
    let '(verification, stored) := verifyChain sha256Hex date_iso env2 env3 stored in
    let chainHead := if truthy (v_head verification) then v_head verification else None in
    let manifest :=
      mkManifest now "UTC" "SHA-256" "AES-256-CBC (data store)" "HMAC-SHA256"
        (length chain) chainHead (v_ok verification) (v_breaks verification) in
    let manifestPath := d ++ base ++ ".manifest.json" in
    Some (mkExportResult jsonlPath manifestPath chainHead,
          [(jsonlPath, String.concat (String "010" "") lines); (manifestPath, manifest_json manifest)],
          stored).

End ChainExport.

(* ------------------------------------------------------------------ *)
(** ** The rest of src/src/storage.js and the app's startup check *)

(** [getEntry(id)]: [entries.find(entry => entry.id === id) || null]. *)
Definition getEntry (id : string) (st : Store) : option Entry :=
  find (fun entry => String.eqb (e_id entry) id) (loadEntries st).

(** [clearAllVaultStorage()]: removes the three AsyncStorage keys, then the
    four SecureStore keys. *)
Definition clearAllVaultStorage (st : Store) : Store :=
  let st := set_entries None st in
  let st := set_tamper None st in
  let st := set_meta None st in
  set_secure None None None None st.

(** The startup effect of [app/index.tsx]: [wrapped && salt && iter]
    (the wrapped record is a JSON object text, never empty). *)
Definition startup_initialized (st : Store) : bool :=
  match ss_wrapped st with Some _ => true | None => false end &&
  truthy (ss_salt st) && truthy (ss_iter st).

(* ------------------------------------------------------------------ *)
(** ** Saving an entry and the manual integrity check (src/app/index.tsx) *)


Definition string_rev (s : string) : string :=
  string_of_list_ascii (rev (list_ascii_of_string s)).

(** [s.trim()] *)
Definition js_trim (s : string) : string :=
  string_rev (trim_start (string_rev (trim_start s))).

Section VaultMore.
Variable aes_cbc_encrypt : list Byte.byte -> list Byte.byte -> list Byte.byte -> list Byte.byte.
Variable base64_stringify : list Byte.byte -> string.
Variable utf8_parse : string -> list Byte.byte.
Variable sha256 : list Byte.byte -> list Byte.byte.
Variable hmac_sha256 : list Byte.byte -> string -> list Byte.byte.

(** [handleSaveNewEntry]: [ivBytes] are the bytes of [randomHex(16)],
    [ts] the entry's ISO time, [nowMs] is [Date.now()] and [now] the ISO
    time of the log item. *)
Definition handleSaveNewEntry (masterKeyHex : option string) (newEntryText : string)
    (ivBytes : list Byte.byte) (ts : string) (nowMs : Z) (now : string) (st : Store) : Store :=
  match masterKeyHex with
  | None => st
  | Some k =>
    if String.eqb k "" then st
    else if String.eqb newEntryText "" || String.eqb (js_trim newEntryText) "" then st
    else
      let '(ivHex, ciphertextB64, hmac, ts) :=
        encryptEntryWithMaster aes_cbc_encrypt base64_stringify utf8_parse sha256 hmac_sha256
          k newEntryText ivBytes ts in
      let id := js_String_Z nowMs ++ "-" ++ substring 0 6 ivHex in
      let entry := mkEntry id ivHex ciphertextB64 hmac ts in
      let st := appendEntry entry st in
      appendTamperLog (mkLog now "entry_added" None (Some id)) st
  end.

(** [handleVerifyNow]; [now] is the time read by [verifyIntegrity] and
    [now'] the time of the [manual_integrity_check] item. *)
Definition handleVerifyNow (masterKeyHex : option string) (now now' : string) (st : Store) : Store :=
  match masterKeyHex with
  | None => st
  | Some k =>
    if String.eqb k "" then st
    else
      let st := verifyIntegrity sha256 hmac_sha256 k now st in
      appendTamperLog (mkLog now' "manual_integrity_check" None None) st
  end.

End VaultMore.

(** Lowercase hex digits, and strings made of pairs of them. *)
Definition is_lower_hex (c : ascii) : bool :=
  existsb (Ascii.eqb c) (list_ascii_of_string "0123456789abcdef").

Fixpoint lower_hex_pairs (s : string) : bool :=
  match s with
  | EmptyString => true
  | String c1 (String c2 r) => is_lower_hex c1 && is_lower_hex c2 && lower_hex_pairs r
  | String _ EmptyString => false
  end.

(** Concrete stores and printers for running the handlers above on the
    computable instance. *)
Module ToyRuns.
Import ToyCrypto.

Definition key1 : string := bytesToHex master.

Definition vault1 : Store :=
  snd (handleCreateVault kdf enc b64s "correct-horse-battery" "correct-horse-battery"
         master salt wrapIv "T0" store0).

Definition vault1_bio : Store := set_meta (Some true) vault1.

Definition vault2 : Store :=
  handleSaveNewEntry enc b64s u8p sha hmac (Some key1) "dear diary" wrapIv "T2" 1700000000000%Z "T3"
    vault1.

Definition upd1 : PartialEntry := mkPartialEntry None None (Some "Y3Qz") None None.

Definition show_block (b : Block) : string := or_str (b_event b) "".

Definition show_manifest (m : Manifest) : string := m_exportedAt m.

End ToyRuns.

Example canonical_string_example :
  canonicalStringForBlock
    (mkBlock (Some 2%Z) (Some "t") None (Some "n") (Some "e") None (Some "d")
       None None None None (Some "c") None (JStr "p") None None)
  = "2|t|e|d|||||p".
Proof. reflexivity. Qed.

Section ChainProofs.

Variable sha256Hex : string -> string.
Variable date_iso : string -> option string.

(** A SHA-256 hex digest is never the empty string. *)
Hypothesis sha_nonempty : forall s, sha256Hex s <> "".

Lemma truthy_sha s : truthy (Some (sha256Hex s)) = true.
Proof.
  unfold truthy. destruct (String.eqb_spec (sha256Hex s) ""); auto.
  exfalso; eapply sha_nonempty; eauto.
Qed.

Lemma rebuild_block_not_legacy env i p item :
  is_legacy (rebuild_block sha256Hex date_iso env i p item) = false.
Proof.
  unfold is_legacy, rebuild_block; cbn [b_blockHash b_prevHash].
  rewrite truthy_sha; cbn.
  destruct (truthy p), p; reflexivity.
Qed.

Lemma rebuild_fold_forall (P : Block -> Prop) env :
  (forall i p item, P (rebuild_block sha256Hex date_iso env i p item)) ->
  forall l i p acc, Forall P acc ->
  Forall P (let '(_, _, r) := fold_left (rebuild_step sha256Hex date_iso env) l (i, p, acc) in r).
Proof.
  intros HP l; induction l as [|x l IH]; intros i p acc Hacc; cbn; auto.
  apply IH. apply Forall_app; split; auto.
Qed.

Lemma existsb_false_Forall {A} (f : A -> bool) l :
  existsb f l = false <-> Forall (fun x => f x = false) l.
Proof.
  induction l as [|x l IH]; cbn; split; intros H; auto.
  - apply orb_false_iff in H as [H1 H2]. constructor; auto. apply IH; auto.
  - inversion H; subst. apply orb_false_iff; split; auto. apply IH; auto.
Qed.

(** After [ensureMigrated] no stored item is legacy. *)
Lemma migrated_canonical env raw :
  existsb is_legacy (migrated sha256Hex date_iso env raw) = false.
Proof.
  unfold migrated, ensureMigrated.
  destruct raw as [|x r]; [reflexivity|].
  destruct (existsb is_legacy (x :: r)) eqn:E; [|exact E].
  apply existsb_false_Forall. apply Forall_rev.
  unfold rebuild.
  apply (rebuild_fold_forall (fun b => is_legacy b = false)).
  - intros; apply rebuild_block_not_legacy.
  - constructor.
Qed.

Lemma ensureMigrated_canonical env l :
  existsb is_legacy l = false -> ensureMigrated sha256Hex date_iso env l = None.
Proof.
  intros H; unfold ensureMigrated; destruct l; [reflexivity|]. now rewrite H.
Qed.

Lemma migrated_canonical_id env l :
  existsb is_legacy l = false -> migrated sha256Hex date_iso env l = l.
Proof.
  intros H; unfold migrated; now rewrite ensureMigrated_canonical.
Qed.

Lemma rebuild_block_hash env i p item :
  b_blockHash (rebuild_block sha256Hex date_iso env i p item)
  = Some (computeBlockHash sha256Hex (rebuild_block sha256Hex date_iso env i p item)).
Proof. reflexivity. Qed.

Lemma appendEvent_hash env ts nonce ev l :
  b_blockHash (fst (appendEvent sha256Hex date_iso env ts nonce ev l))
  = Some (computeBlockHash sha256Hex (fst (appendEvent sha256Hex date_iso env ts nonce ev l))).
Proof. reflexivity. Qed.

(** C3: [blockHash] is [sha256Hex] of the canonical pipe-joined string of
    the 9 fields seq, ts, event, detail, id, file, hash, signature,
    prevHash (absent fields as [""]), both for blocks made by
    [appendEvent] and for blocks rebuilt by [ensureMigrated]; the
    canonical string, hence the hash, depends on those 9 fields only. *)
Theorem canonical_block_hash :
  (forall b1 b2, same_canon_fields b1 b2 ->
     canonicalStringForBlock b1 = canonicalStringForBlock b2 /\
     computeBlockHash sha256Hex b1 = computeBlockHash sha256Hex b2) /\
  (forall env ts nonce ev l,
     let b := fst (appendEvent sha256Hex date_iso env ts nonce ev l) in
     b_blockHash b = Some (sha256Hex (canonicalStringForBlock b))) /\
  (forall env l w, ensureMigrated sha256Hex date_iso env l = Some w ->
     Forall (fun b => b_blockHash b = Some (sha256Hex (canonicalStringForBlock b))) w).
Proof.
  split; [|split].
  - intros b1 b2 (H1 & H2 & H3 & H4 & H5 & H6 & H7 & H8 & H9).
    assert (E : canonicalStringForBlock b1 = canonicalStringForBlock b2).
    { unfold canonicalStringForBlock.
      rewrite H1, H2, H3, H4, H5, H6, H7, H8, H9; reflexivity. }
    split; [exact E|]. unfold computeBlockHash; now rewrite E.
  - intros; apply appendEvent_hash.
  - intros env l w H. unfold ensureMigrated in H.
    destruct l as [|x r]; [discriminate|].
    destruct (existsb is_legacy (x :: r)); [|discriminate].
    injection H as <-. apply Forall_rev. unfold rebuild.
    apply (rebuild_fold_forall
             (fun b => b_blockHash b = Some (sha256Hex (canonicalStringForBlock b)))).
    + intros; apply rebuild_block_hash.
    + constructor.
Qed.

(** C7: running [ensureMigrated] a second time, whatever the stored log
    was, detects no legacy item and writes nothing: the stored array after
    the second run is the array left by the first. *)
Theorem ensureMigrated_idempotent env1 env2 raw :
  let s1 := migrated sha256Hex date_iso env1 raw in
  ensureMigrated sha256Hex date_iso env2 s1 = None /\
  migrated sha256Hex date_iso env2 s1 = s1.
Proof.
  cbv zeta. split.
  - apply ensureMigrated_canonical, migrated_canonical.
  - apply migrated_canonical_id, migrated_canonical.
Qed.

(** Invariant of a stored (newest-first) log built by [appendEvent]:
    seqs [n, ..., 1], each block pointing at the next older one, each
    [blockHash] the hash of the block's own canonical string. *)
Fixpoint chain_ok (stored : list Block) : Prop :=
  match stored with
  | [] => True
  | b :: t =>
    b_seq b = Some (Z.of_nat (S (length t))) /\
    b_prevHash b = prev_of t /\
    b_blockHash b = Some (computeBlockHash sha256Hex b) /\
    chain_ok t
  end.

Lemma chain_ok_not_legacy l : chain_ok l -> existsb is_legacy l = false.
Proof.
  induction l as [|b t IH]; cbn; auto.
  intros (_ & Hp & Hh & Ht). rewrite IH by auto.
  unfold is_legacy. rewrite Hh. unfold computeBlockHash. rewrite truthy_sha.
  rewrite Hp. destruct t as [|b' t']; cbn; auto.
  cbn in Ht. destruct Ht as (_ & _ & Hh' & _). now rewrite Hh'.
Qed.

Lemma last_seq_below t acc :
  chain_ok t -> (Z.of_nat (length t) <= acc)%Z ->
  fold_left (fun acc it =>
    match b_seq it with
    | Some n => if Z.ltb acc n then n else acc
    | None => acc
    end) t acc = acc.
Proof.
  revert acc; induction t as [|b t IH]; intros acc Hok Hle; cbn; auto.
  destruct Hok as (Hs & _ & _ & Ht). rewrite Hs.
  cbn [length] in Hle.
  destruct (Z.ltb_spec acc (Z.of_nat (S (length t)))); [lia|].
  apply IH; auto. lia.
Qed.

Lemma last_seq_chain l : chain_ok l -> last_seq l = Z.of_nat (length l).
Proof.
  destruct l as [|b t]; [reflexivity|].
  intros Hok. unfold last_seq. cbn [fold_left].
  pose proof Hok as (Hs & _ & _ & Ht). rewrite Hs.
  destruct (Z.ltb_spec 0 (Z.of_nat (S (length t)))); [|lia].
  apply last_seq_below; auto. cbn [length]. lia.
Qed.

Lemma max_seq_item_below t a m :
  chain_ok t -> b_seq a = Some m -> (Z.of_nat (length t) < m)%Z ->
  fold_left (fun acc cur =>
    match acc with
    | None => Some cur
    | Some a =>
      match b_seq cur with
      | Some n =>
        if Z.ltb (match b_seq a with Some m => m | None => 0%Z end) n
        then Some cur else Some a
      | None => Some a
      end
    end) t (Some a) = Some a.
Proof.
  induction t as [|b t IH]; intros Hok Ha Hlt; cbn; auto.
  destruct Hok as (Hs & _ & _ & Ht). rewrite Hs, Ha.
  cbn [length] in Hlt.
  destruct (Z.ltb_spec m (Z.of_nat (S (length t)))); [lia|].
  apply IH; auto. lia.
Qed.

Lemma max_seq_item_chain b t :
  chain_ok (b :: t) -> max_seq_item (b :: t) = Some b.
Proof.
  intros Hok. unfold max_seq_item. cbn [fold_left].
  pose proof Hok as (Hs & _ & _ & Ht).
  apply (max_seq_item_below t b (Z.of_nat (S (length t)))); auto. lia.
Qed.

(** One [appendEvent] on a log satisfying the invariant pushes a block on
    top and keeps the invariant. *)
Lemma appendEvent_chain_ok env ts nonce ev l :
  chain_ok l ->
  let '(b, l') := appendEvent sha256Hex date_iso env ts nonce ev l in
  l' = b :: l /\ chain_ok l'.
Proof.
  intros Hok. unfold appendEvent.
  rewrite (migrated_canonical_id _ _ (chain_ok_not_legacy _ Hok)).
  rewrite (last_seq_chain _ Hok).
  split; [reflexivity|].
  cbn [chain_ok]. split; [|split; [|split]]; auto.
  - cbn. f_equal. lia.
  - cbn [b_prevHash]. destruct l as [|b t]; [reflexivity|].
    rewrite (max_seq_item_chain _ _ Hok).
    destruct Hok as (_ & _ & Hh & _). rewrite Hh. unfold computeBlockHash.
    rewrite truthy_sha. cbv iota beta. rewrite truthy_sha. cbn [prev_of]. now rewrite Hh.
Qed.

Lemma appendEvents_chain_ok calls l :
  chain_ok l -> chain_ok (appendEvents sha256Hex date_iso calls l) /\
  length (appendEvents sha256Hex date_iso calls l) = (length calls + length l)%nat.
Proof.
  revert l; induction calls as [|[[[env ts] nonce] ev] rest IH]; intros l Hok; cbn [appendEvents length]; auto.
  pose proof (appendEvent_chain_ok env ts nonce ev l Hok) as H.
  destruct (appendEvent sha256Hex date_iso env ts nonce ev l) as [b l'] eqn:E.
  destruct H as [-> Hok']. cbn [snd].
  destruct (IH _ Hok') as [H1 H2]. split; auto. rewrite H2; cbn; lia.
Qed.

Lemma or_js_prev_of t : or_js (prev_of t) "" = or_str (head_hash t) "".
Proof. destruct t as [|b t]; [reflexivity|]. cbn. now destruct (b_blockHash b). Qed.

Lemma or_str_sha s : or_str (Some (sha256Hex s)) "" = sha256Hex s.
Proof.
  unfold or_str. destruct (String.eqb_spec (sha256Hex s) "") as [E|E]; [|reflexivity].
  exfalso; exact (sha_nonempty s E).
Qed.

Lemma chain_ok_checks b t :
  chain_ok (b :: t) ->
  prev_matches (head_hash t) b = true /\
  block_matches sha256Hex b = true /\
  next_prev sha256Hex b = b_blockHash b.
Proof.
  intros (Hs & Hp & Hh & Ht).
  unfold prev_matches, block_matches, next_prev.
  rewrite Hp, or_js_prev_of, String.eqb_refl, Hh.
  unfold computeBlockHash. rewrite or_str_sha, String.eqb_refl, truthy_sha.
  auto.
Qed.

(** [verifyChain]'s loop over a log satisfying the invariant: no break,
    and [prev] ends on the newest stored hash. *)
Lemma verify_chain_ok l :
  chain_ok l ->
  exists ds, fold_left (verify_step sha256Hex) (rev l) (None, 0%nat, []) = (head_hash l, 0%nat, ds) /\
             Forall (fun d => passes d = true) ds.
Proof.
  induction l as [|b t IH]; intros Hok; [exists []; split; auto|].
  destruct (chain_ok_checks b t Hok) as (H1 & H2 & H3).
  destruct (IH (proj2 (proj2 (proj2 Hok)))) as (ds & Hf & Hds).
  cbn [rev]. rewrite fold_left_app, Hf. cbn [fold_left verify_step].
  exists (ds ++ [verify_detail sha256Hex (head_hash t) b])%list.
  rewrite H1, H2, H3. split; [reflexivity|].
  apply Forall_app; split; auto. constructor; auto.
  unfold passes; cbn. now rewrite H1, H2.
Qed.

Fixpoint end_ptr (p : jsval) (c : list Block) : jsval :=
  match c with [] => p | b :: t => end_ptr (hash_ptr (b_blockHash b)) t end.

Lemma end_ptr_snoc p c b : end_ptr p (c ++ [b]) = hash_ptr (b_blockHash b).
Proof. revert p; induction c as [|x c IH]; intros p; cbn; auto. Qed.

Lemma linked_snoc p c b :
  linked p c -> b_prevHash b = end_ptr p c -> (exists h, b_blockHash b = Some h) ->
  linked p (c ++ [b]).
Proof.
  revert p; induction c as [|x c IH]; intros p Hl Hp [h Hh]; cbn in *.
  - split; auto. exists h; auto.
  - destruct Hl as (Hx & h' & Hh' & Hl). split; auto. exists h'. split; auto.
    apply IH; eauto. rewrite Hp, Hh'. reflexivity.
Qed.

Lemma end_ptr_rev l : chain_ok l -> end_ptr JNull (rev l) = prev_of l.
Proof.
  destruct l as [|b t]; [reflexivity|]. intros _. cbn [rev].
  rewrite end_ptr_snoc. reflexivity.
Qed.

Lemma linked_rev l : chain_ok l -> linked JNull (rev l).
Proof.
  induction l as [|b t IH]; cbn [rev]; [cbn; auto|].
  intros (Hs & Hp & Hh & Ht). apply linked_snoc; auto.
  - rewrite end_ptr_rev by auto. exact Hp.
  - eauto.
Qed.

Lemma seqs_rev l :
  chain_ok l -> map b_seq (rev l) = map (fun i => Some (Z.of_nat i)) (seq 1 (length l)).
Proof.
  induction l as [|b t IH]; [reflexivity|].
  intros (Hs & _ & _ & Ht). cbn [rev length].
  rewrite map_app, IH by auto. rewrite seq_S, map_app. cbn. now rewrite Hs.
Qed.

(** C2: after [N] [appendEvent] calls on an empty log, the chain read
    chronologically has seqs [1..N], block 1 has [prevHash] [null], every
    later block's [prevHash] is its predecessor's [blockHash], and
    [verifyChain] reports [ok], no break and the last block's hash as
    head. *)
Theorem appendEvents_chain calls env1 env2 :
  let stored := appendEvents sha256Hex date_iso calls [] in
  let chain := rev stored in
  let v := fst (verifyChain sha256Hex date_iso env1 env2 stored) in
  map b_seq chain = map (fun i => Some (Z.of_nat i)) (seq 1 (length calls)) /\
  linked JNull chain /\
  v_ok v = true /\ v_breaks v = 0%nat /\
  v_head v = match chain with [] => None | _ => b_blockHash (last chain empty_block) end.
Proof.
  cbv zeta.
  destruct (appendEvents_chain_ok calls [] I) as [Hok Hlen].
  rewrite Nat.add_0_r in Hlen.
  set (l := appendEvents sha256Hex date_iso calls []) in *. clearbody l.
  split; [rewrite <- Hlen; now apply seqs_rev|].
  split; [now apply linked_rev|].
  unfold verifyChain, loadChain.
  rewrite (migrated_canonical_id _ _ (chain_ok_not_legacy _ Hok)).
  rewrite (migrated_canonical_id _ _ (chain_ok_not_legacy _ Hok)).
  destruct (verify_chain_ok l Hok) as (ds & Hf & _).
  destruct l as [|b t]; [cbn; auto|].
  cbn [fst]. unfold verify_walk.
  cbn [rev] in *. destruct (rev t ++ [b])%list as [|x c] eqn:E.
  { destruct (rev t); discriminate. }
  rewrite Hf. cbn -[last]. repeat split.
  rewrite <- E, last_last. reflexivity.
Qed.

Lemma verify_walk_fold c :
  verify_walk sha256Hex c =
  let '(p, k, d) := fold_left (verify_step sha256Hex) c (None, 0%nat, []) in
  mkVerification (Nat.eqb k 0) k p d.
Proof. destruct c; reflexivity. Qed.

Lemma verifyChain_eq env1 env2 s :
  verifyChain sha256Hex date_iso env1 env2 s =
  (verify_walk sha256Hex (rev (migrated sha256Hex date_iso env1 s)),
   migrated sha256Hex date_iso env1 s).
Proof.
  unfold verifyChain, loadChain.
  now rewrite (migrated_canonical_id env2 _ (migrated_canonical env1 s)).
Qed.

(** The loop's breaks and details are accumulated: a run from any state
    is the run from [(prev, 0, [])] added on. *)
Lemma verify_shift c p k d :
  fold_left (verify_step sha256Hex) c (p, k, d) =
  let '(p', k', d') := fold_left (verify_step sha256Hex) c (p, 0%nat, []) in
  (p', (k + k')%nat, (d ++ d')%list).
Proof.
  revert p k d; induction c as [|x c IH]; intros p k d; cbn [fold_left].
  - now rewrite Nat.add_0_r, app_nil_r.
  - cbn [verify_step]. rewrite IH.
    rewrite (IH _ (if prev_matches p x && block_matches sha256Hex x then 0 else 1)%nat).
    destruct (fold_left (verify_step sha256Hex) c (next_prev sha256Hex x, 0%nat, []))
      as [[p' k'] d'].
    f_equal; [f_equal|].
    + destruct (prev_matches p x && block_matches sha256Hex x); lia.
    + now rewrite <- app_assoc.
Qed.

(** [breaks] counts the details where a check failed. *)
Lemma verify_count c p :
  let '(_, k, d) := fold_left (verify_step sha256Hex) c (p, 0%nat, []) in
  k = length (filter (fun x => negb (passes x)) d) /\ length d = length c.
Proof.
  revert p; induction c as [|x c IH]; intros p; [cbn; auto|].
  cbn [fold_left verify_step]. rewrite verify_shift.
  specialize (IH (next_prev sha256Hex x)).
  destruct (fold_left (verify_step sha256Hex) c (next_prev sha256Hex x, 0%nat, []))
    as [[p' k'] d'].
  destruct IH as [IH1 IH2]. cbn [app filter length].
  unfold passes at 1; cbn [verify_detail d_prevMatches d_blockMatches].
  destruct (prev_matches p x && block_matches sha256Hex x); cbn; lia.
Qed.

Lemma count_zero_passes (ds : list Detail) :
  0%nat = length (filter (fun x => negb (passes x)) ds) -> Forall (fun d => passes d = true) ds.
Proof.
  induction ds as [|x ds IH]; cbn; auto.
  destruct (passes x) eqn:E; cbn; [|discriminate]. intros H; constructor; auto.
Qed.

(** Changing a block's [detail] changes its canonical string when the
    serialized values differ. *)
Lemma string_app_inv_l (x y z : string) : (x ++ y = x ++ z)%string -> y = z.
Proof. induction x as [|a x IH]; cbn; auto. intros H; injection H; auto. Qed.

Lemma string_length_app (x y : string) : String.length (x ++ y) = (String.length x + String.length y)%nat.
Proof. induction x as [|a x IH]; cbn; auto. Qed.

Lemma string_app_inv_r (x y z : string) : (x ++ z = y ++ z)%string -> x = y.
Proof.
  revert y; induction x as [|a x IH]; intros y H; destruct y as [|b y]; auto.
  - apply (f_equal String.length) in H. cbn in H. rewrite ?string_length_app in H. lia.
  - apply (f_equal String.length) in H. cbn in H. rewrite ?string_length_app in H. lia.
  - cbn in H. injection H as <- H. f_equal; auto.
Qed.

Lemma canonical_detail_changes b d :
  or_str (Some d) "" <> or_str (b_detail b) "" ->
  canonicalStringForBlock (set_detail b d) <> canonicalStringForBlock b.
Proof.
  intros Hd Hc. apply Hd. unfold canonicalStringForBlock in Hc. cbn [String.concat] in Hc.
  cbn [set_detail b_seq b_ts b_event b_detail b_id b_file b_hash b_signature b_prevHash] in Hc.
  apply string_app_inv_l in Hc. injection Hc as Hc.
  apply string_app_inv_l in Hc. injection Hc as Hc.
  apply string_app_inv_l in Hc. injection Hc as Hc.
  eapply string_app_inv_r; exact Hc.
Qed.

(** C4: on a stored log on which [verifyChain] reported no break, giving
    one stored block a new [detail] (whose canonical string does not
    collide with the old one under SHA-256) makes [verifyChain] report
    exactly one break: the detail entry of that block, at its position in
    the chronological list (after the [length l2] older blocks, before
    the [length l1] newer ones) and carrying its [seq], has a failing
    block check, and every other block, before or after it, passes both
    checks (the walk carries on from the stored hash). *)
Theorem tamper_detail_single_break env1 env2 env3 env4 s r l1 b l2 d :
  verifyChain sha256Hex date_iso env1 env2 s = (r, (l1 ++ b :: l2)%list) ->
  v_breaks r = 0%nat ->
  sha256Hex (canonicalStringForBlock (set_detail b d)) <>
    sha256Hex (canonicalStringForBlock b) ->
  let v := fst (verifyChain sha256Hex date_iso env3 env4 (l1 ++ set_detail b d :: l2)) in
  v_breaks v = 1%nat /\ v_ok v = false /\
  exists D1 dt D2, v_details v = (D1 ++ dt :: D2)%list /\ length D1 = length l2 /\
    length D2 = length l1 /\
    d_seq dt = b_seq b /\ d_prevMatches dt = true /\ d_blockMatches dt = false /\
    Forall (fun x => passes x = true) (D1 ++ D2).
Proof.
  intros Hv Hr Hc. cbv zeta.
  rewrite verifyChain_eq in Hv. injection Hv as Hr' Hs'.
  assert (Hcan : existsb is_legacy (l1 ++ b :: l2) = false)
    by (rewrite <- Hs'; apply migrated_canonical).
  rewrite Hs' in Hr'.
  assert (Hcan' : existsb is_legacy (l1 ++ set_detail b d :: l2) = false)
    by (rewrite existsb_app in *; exact Hcan).
  assert (Htr : truthy (b_blockHash b) = true).
  { rewrite existsb_app in Hcan. cbn [existsb] in Hcan.
    apply orb_false_iff in Hcan as [_ Hcan]. apply orb_false_iff in Hcan as [Hb _].
    unfold is_legacy in Hb. apply orb_false_iff in Hb as [Hb _].
    now destruct (truthy (b_blockHash b)). }
  rewrite verifyChain_eq, (migrated_canonical_id _ _ Hcan'). cbn [fst].
  rewrite verify_walk_fold in Hr' |- *.
  rewrite rev_app_distr in Hr' |- *. cbn [rev] in Hr' |- *.
  rewrite !fold_left_app in Hr' |- *.
  pose proof (verify_count (rev l2) None) as C1.
  destruct (fold_left (verify_step sha256Hex) (rev l2) (None, 0%nat, []))
    as [[p1 k1] D1] eqn:E1.
  cbn [fold_left verify_step] in Hr' |- *.
  assert (Hnp : next_prev sha256Hex (set_detail b d) = next_prev sha256Hex b)
    by (unfold next_prev; cbn [set_detail b_blockHash]; now rewrite Htr).
  rewrite Hnp. rewrite verify_shift in Hr' |- *.
  pose proof (verify_count (rev l1) (next_prev sha256Hex b)) as C3.
  destruct (fold_left (verify_step sha256Hex) (rev l1) (next_prev sha256Hex b, 0%nat, []))
    as [[p3 k3] D3] eqn:E3.
  subst r. cbn [v_breaks] in Hr.
  destruct (prev_matches p1 b && block_matches sha256Hex b) eqn:Hpb; [|lia].
  apply andb_true_iff in Hpb as [Hpm Hbm].
  assert (Hpm' : prev_matches p1 (set_detail b d) = true) by exact Hpm.
  assert (Hbm' : block_matches sha256Hex (set_detail b d) = false).
  { unfold block_matches in *. cbn [set_detail b_blockHash].
    apply String.eqb_eq in Hbm. rewrite Hbm. apply String.eqb_neq.
    unfold computeBlockHash. rewrite !or_str_sha. intros E; apply Hc; now symmetry. }
  rewrite Hpm', Hbm'. cbn [andb].
  destruct C1 as [C1a C1b]. destruct C3 as [C3a C3b].
  cbn [v_breaks v_ok v_details].
  split; [lia|]. split; [apply Nat.eqb_neq; lia|].
  exists D1, (verify_detail sha256Hex p1 (set_detail b d)), D3.
  split; [now rewrite <- app_assoc|].
  split; [now rewrite C1b, length_rev|].
  split; [now rewrite C3b, length_rev|].
  split; [reflexivity|]. split; [exact Hpm'|]. split; [exact Hbm'|].
  apply Forall_app; split; apply count_zero_passes; lia.
Qed.

(** Two blocks equal up to [custody], [nonce] and [_raw]. *)
Definition same_but_cnr (b1 b2 : Block) : Prop := erase_cnr b1 = erase_cnr b2.

Ltac erase_eq H :=
  match type of H with
  | erase_cnr ?x = erase_cnr ?y =>
    destruct x, y; cbn in H; injection H; intros; subst; reflexivity
  end.

Lemma erase_cn_cnr b1 b2 : erase_cn b1 = erase_cn b2 -> same_but_cnr b1 b2.
Proof.
  unfold same_but_cnr. destruct b1, b2; cbn; intros H; injection H; intros; subst; reflexivity.
Qed.

Lemma same_but_cnr_legacy b1 b2 : same_but_cnr b1 b2 -> is_legacy b1 = is_legacy b2.
Proof. unfold same_but_cnr; intros H; erase_eq H. Qed.

Lemma same_but_cnr_rebuild env i p b1 b2 :
  same_but_cnr b1 b2 ->
  same_but_cnr (rebuild_block sha256Hex date_iso env i p b1)
               (rebuild_block sha256Hex date_iso env i p b2).
Proof. unfold same_but_cnr; intros H; erase_eq H. Qed.

Lemma same_but_cnr_step st b1 b2 :
  same_but_cnr b1 b2 -> verify_step sha256Hex st b1 = verify_step sha256Hex st b2.
Proof. destruct st as [[p k] d]. unfold same_but_cnr; intros H; erase_eq H. Qed.

Lemma Forall2_rev_same {A} (R : A -> A -> Prop) l1 l2 :
  Forall2 R l1 l2 -> Forall2 R (rev l1) (rev l2).
Proof.
  induction 1; cbn; auto. apply Forall2_app; auto.
Qed.

Lemma rebuild_fold_rel env l1 l2 i p acc1 acc2 :
  Forall2 same_but_cnr l1 l2 -> Forall2 same_but_cnr acc1 acc2 ->
  Forall2 same_but_cnr
    (let '(_, _, r) := fold_left (rebuild_step sha256Hex date_iso env) l1 (i, p, acc1) in r)
    (let '(_, _, r) := fold_left (rebuild_step sha256Hex date_iso env) l2 (i, p, acc2) in r).
Proof.
  intros H; revert i p acc1 acc2; induction H as [|x y l1 l2 Hxy H IH];
    intros i p acc1 acc2 Hacc; cbn [fold_left rebuild_step]; auto.
  pose proof (same_but_cnr_rebuild env i p x y Hxy) as Hb.
  assert (Eh : b_blockHash (rebuild_block sha256Hex date_iso env i p x) =
                b_blockHash (rebuild_block sha256Hex date_iso env i p y))
    by (apply (f_equal b_blockHash) in Hb; exact Hb).
  rewrite Eh.
  apply IH. apply Forall2_app; auto.
Qed.

Lemma migrated_rel env s1 s2 :
  Forall2 same_but_cnr s1 s2 ->
  Forall2 same_but_cnr (migrated sha256Hex date_iso env s1) (migrated sha256Hex date_iso env s2).
Proof.
  intros H. unfold migrated, ensureMigrated.
  destruct H as [|x y t1 t2 Hxy Ht]; [constructor|].
  assert (E : existsb is_legacy (x :: t1) = existsb is_legacy (y :: t2)).
  { clear -Hxy Ht. revert x y Hxy. induction Ht; intros x' y' Hxy; cbn;
      rewrite (same_but_cnr_legacy _ _ Hxy); auto.
    f_equal. apply IHHt; auto. }
  rewrite E. destruct (existsb is_legacy (y :: t2)); [|constructor; auto].
  apply Forall2_rev_same. unfold rebuild.
  apply rebuild_fold_rel; [|constructor].
  apply Forall2_rev_same. constructor; auto.
Qed.

Lemma verify_fold_rel c1 c2 st :
  Forall2 same_but_cnr c1 c2 ->
  fold_left (verify_step sha256Hex) c1 st = fold_left (verify_step sha256Hex) c2 st.
Proof.
  intros H; revert st; induction H as [|x y c1 c2 Hxy H IH]; intros st; cbn; auto.
  rewrite (same_but_cnr_step st x y Hxy). apply IH.
Qed.

(** C10: [custody] and [nonce] play no part in verification: two stored
    logs that differ only in the [custody] and [nonce] values of their
    blocks get the same [verifyChain] result ([ok], [breaks], [head] and
    every per-block detail). *)
Theorem verifyChain_ignores_custody_nonce env1 env2 s1 s2 :
  Forall2 (fun b1 b2 => erase_cn b1 = erase_cn b2) s1 s2 ->
  fst (verifyChain sha256Hex date_iso env1 env2 s1) =
  fst (verifyChain sha256Hex date_iso env1 env2 s2).
Proof.
  intros H.
  assert (H' : Forall2 same_but_cnr s1 s2)
    by (eapply Forall2_impl; [|exact H]; exact erase_cn_cnr).
  unfold verifyChain, loadChain. cbn [fst].
  apply migrated_rel with (env := env1) in H'.
  apply migrated_rel with (env := env2) in H'.
  apply Forall2_rev_same in H'.
  rewrite !verify_walk_fold. rewrite (verify_fold_rel _ _ _ H'). reflexivity.
Qed.

End ChainProofs.

Section ChainExtras.

Variable sha256Hex : string -> string.
Variable date_iso : string -> option string.

(** A SHA-256 hex digest is never the empty string. *)
Hypothesis sha_nonempty : forall s, sha256Hex s <> "".

(** What [ensureMigrated] keeps of an item: [item._raw || item]. *)
Definition raw_of (item : Block) : option Block :=
  Some (match b_raw item with Some r => r | None => item end).

(** The rebuild loop keeps the stored-log invariant on the blocks rebuilt
    so far (newest-first), with [i] their number and [prevHash] the newest
    hash. *)
Lemma rebuild_fold_inv env l i p acc :
  chain_ok sha256Hex (rev acc) -> i = length acc -> p = head_hash (rev acc) ->
  let '(_, _, r) := fold_left (rebuild_step sha256Hex date_iso env) l (i, p, acc) in
  chain_ok sha256Hex (rev r) /\ length r = (length acc + length l)%nat /\
  map b_raw r = (map b_raw acc ++ map raw_of l)%list.
Proof.
  revert i p acc; induction l as [|x l IH]; intros i p acc Hok Hi Hp; cbn [fold_left].
  - rewrite app_nil_r, Nat.add_0_r. auto.
  - cbn [rebuild_step].
    set (b := rebuild_block sha256Hex date_iso env i p x).
    specialize (IH (S i) (b_blockHash b) (acc ++ [b])%list).
    destruct (fold_left (rebuild_step sha256Hex date_iso env) l (S i, b_blockHash b, (acc ++ [b])%list))
      as [[i' p'] r].
    destruct IH as (H1 & H2 & H3).
    + rewrite rev_app_distr. cbn [rev app chain_ok].
      split; [|split; [|split]]; auto.
      * unfold b, rebuild_block; cbn [b_seq]. rewrite length_rev, Hi. f_equal. lia.
      * unfold b, rebuild_block; cbn [b_prevHash]. subst p.
        destruct (rev acc) as [|c t]; [reflexivity|].
        destruct Hok as (_ & _ & Hh & _). cbn [head_hash prev_of]. rewrite Hh.
        unfold computeBlockHash. rewrite (truthy_sha sha256Hex sha_nonempty). reflexivity.
    + rewrite length_app; cbn; lia.
    + rewrite rev_app_distr. reflexivity.
    + split; [exact H1|split].
      * rewrite H2, length_app. cbn [length]. lia.
      * rewrite H3, map_app, <- app_assoc. reflexivity.
Qed.

Lemma migrated_legacy_chain env raw :
  existsb is_legacy raw = true ->
  chain_ok sha256Hex (migrated sha256Hex date_iso env raw) /\
  length (migrated sha256Hex date_iso env raw) = length raw /\
  map b_raw (rev (migrated sha256Hex date_iso env raw)) = map raw_of (rev raw).
Proof.
  intros H. unfold migrated, ensureMigrated.
  destruct raw as [|x r]; [discriminate|]. rewrite H. unfold rebuild.
  pose proof (rebuild_fold_inv env (rev (x :: r)) 0 None [] I eq_refl eq_refl) as Hinv.
  destruct (fold_left (rebuild_step sha256Hex date_iso env) (rev (x :: r)) (0%nat, None, []))
    as [[i' p'] rb].
  destruct Hinv as (H1 & H2 & H3). rewrite rev_involutive, length_rev, H2, length_rev.
  split; [exact H1|split; [reflexivity|exact H3]].
Qed.

Lemma not_legacy_truthy b : is_legacy b = false -> truthy (b_blockHash b) = true.
Proof.
  unfold is_legacy. intros H. apply orb_false_iff in H as [H _].
  now apply negb_false_iff in H.
Qed.

Lemma next_prev_truthy r : truthy (b_blockHash r) = true -> next_prev sha256Hex r = b_blockHash r.
Proof. intros H. unfold next_prev. now rewrite H. Qed.

Lemma verify_walk_head c :
  c <> [] -> v_head (verify_walk sha256Hex c) = next_prev sha256Hex (last c empty_block).
Proof.
  intros Hc. destruct (exists_last Hc) as (c' & x & ->).
  rewrite verify_walk_fold, fold_left_app, last_last. cbn [fold_left].
  destruct (fold_left (verify_step sha256Hex) c' (None, 0%nat, [])) as [[p k] d].
  reflexivity.
Qed.

Lemma last_in_not_legacy (l : list Block) :
  existsb is_legacy l = false -> l <> [] -> is_legacy (last l empty_block) = false.
Proof.
  intros H Hl. apply existsb_false_Forall in H.
  rewrite Forall_forall in H. apply H.
  destruct (exists_last Hl) as (l' & x & ->). rewrite last_last.
  apply in_or_app; right; left; reflexivity.
Qed.

Lemma rev_canonical (m : list Block) :
  existsb is_legacy m = false -> existsb is_legacy (rev m) = false.
Proof.
  intros H. apply existsb_false_Forall, Forall_rev, existsb_false_Forall, H.
Qed.

(** The head reported by the walk over a canonical log: the last
    chronological block's stored hash, which is truthy. *)
Lemma walk_head_canonical (m : list Block) :
  existsb is_legacy m = false ->
  v_head (verify_walk sha256Hex (rev m))
  = match rev m with [] => None | _ => b_blockHash (last (rev m) empty_block) end /\
  (rev m <> [] -> truthy (b_blockHash (last (rev m) empty_block)) = true).
Proof.
  intros Hm. apply rev_canonical in Hm.
  destruct (rev m) as [|x c] eqn:E; [split; [reflexivity|congruence]|].
  assert (Ht : truthy (b_blockHash (last (x :: c) empty_block)) = true).
  { apply not_legacy_truthy, last_in_not_legacy; [exact Hm|discriminate]. }
  split; [|intros _; exact Ht].
  rewrite verify_walk_head by discriminate. apply next_prev_truthy, Ht.
Qed.

Lemma prev_not_undef (x : option string) :
  match (if truthy x then match x with Some h => JStr h | None => JNull end else JNull) with
  | JUndef => true | _ => false end = false.
Proof. destruct (truthy x), x; reflexivity. Qed.

Lemma appendEvent_not_legacy env ts nonce ev s :
  existsb is_legacy (snd (appendEvent sha256Hex date_iso env ts nonce ev s)) = false.
Proof.
  unfold appendEvent. cbn [snd existsb].
  rewrite (migrated_canonical sha256Hex date_iso sha_nonempty). rewrite orb_false_r.
  unfold is_legacy. cbn [b_blockHash b_prevHash]. rewrite (truthy_sha sha256Hex sha_nonempty). cbn [negb orb].
  apply prev_not_undef.
Qed.

Lemma appendEvent_shape env ts nonce ev s :
  snd (appendEvent sha256Hex date_iso env ts nonce ev s)
  = fst (appendEvent sha256Hex date_iso env ts nonce ev s) :: migrated sha256Hex date_iso env s.
Proof. reflexivity. Qed.

Lemma appendEvent_migrated env ts nonce ev s :
  appendEvent sha256Hex date_iso env ts nonce ev s
  = appendEvent sha256Hex date_iso env ts nonce ev (migrated sha256Hex date_iso env s).
Proof.
  unfold appendEvent at 2.
  rewrite (migrated_canonical_id sha256Hex date_iso env (migrated sha256Hex date_iso env s))
    by apply (migrated_canonical sha256Hex date_iso sha_nonempty).
  reflexivity.
Qed.

(** X: [ensureMigrated] repairs any stored log holding a legacy item
    (one without [blockHash] or with [prevHash] undefined): the stored log
    keeps its length, is re-sequenced [1..n] in chronological order,
    linked from [prevHash] [null] through each predecessor's [blockHash],
    each rebuilt block keeps [item._raw || item] of its source item, and
    [verifyChain] reports [ok] with no break and every detail passing. *)
Theorem migration_repairs_legacy_log env1 env2 raw :
  existsb is_legacy raw = true ->
  let s := migrated sha256Hex date_iso env1 raw in
  let v := fst (verifyChain sha256Hex date_iso env1 env2 raw) in
  snd (verifyChain sha256Hex date_iso env1 env2 raw) = s /\
  length s = length raw /\
  map b_seq (rev s) = map (fun i => Some (Z.of_nat i)) (seq 1 (length raw)) /\
  linked JNull (rev s) /\
  map b_raw (rev s) = map raw_of (rev raw) /\
  v_ok v = true /\ v_breaks v = 0%nat /\ Forall (fun d => passes d = true) (v_details v).
Proof.
  intros H. cbv zeta. destruct (migrated_legacy_chain env1 raw H) as (Hok & Hlen & Hraw).
  rewrite verifyChain_eq by exact sha_nonempty. cbn [fst snd].
  set (s := migrated sha256Hex date_iso env1 raw) in *. clearbody s.
  destruct (verify_chain_ok sha256Hex sha_nonempty s Hok) as (ds & Hf & Hds).
  rewrite verify_walk_fold, Hf.
  split; [reflexivity|]. split; [exact Hlen|].
  split; [rewrite <- Hlen; apply (seqs_rev sha256Hex); exact Hok|].
  split; [apply (linked_rev sha256Hex); exact Hok|].
  split; [exact Hraw|]. cbn. auto.
Qed.

(** X: [appendEvent] on a stored log holding a legacy item first repairs
    it, then pushes a block with seq [n + 1] on the repaired log; the
    result verifies with no break and with the new block's hash as
    head. *)
Theorem appendEvent_on_legacy_log env env1 env2 ts nonce ev s :
  existsb is_legacy s = true ->
  let '(b, s') := appendEvent sha256Hex date_iso env ts nonce ev s in
  let v := fst (verifyChain sha256Hex date_iso env1 env2 s') in
  s' = b :: migrated sha256Hex date_iso env s /\
  b_seq b = Some (Z.of_nat (S (length s))) /\
  v_ok v = true /\ v_breaks v = 0%nat /\ v_head v = b_blockHash b.
Proof.
  intros H. destruct (migrated_legacy_chain env s H) as (Hok & Hlen & _).
  rewrite appendEvent_migrated.
  pose proof (appendEvent_chain_ok sha256Hex date_iso sha_nonempty env ts nonce ev _ Hok) as Hc.
  destruct (appendEvent sha256Hex date_iso env ts nonce ev (migrated sha256Hex date_iso env s))
    as [b s'] eqn:Eb.
  destruct Hc as [-> Hok'].
  split; [reflexivity|]. split.
  - destruct Hok' as (Hs & _). rewrite Hs, Hlen. reflexivity.
  - rewrite verifyChain_eq by exact sha_nonempty. cbn [fst].
    rewrite (migrated_canonical_id sha256Hex date_iso env1 (b :: migrated sha256Hex date_iso env s))
      by apply (chain_ok_not_legacy sha256Hex sha_nonempty _ Hok').
    destruct (verify_chain_ok sha256Hex sha_nonempty _ Hok') as (ds & Hf & _).
    rewrite verify_walk_fold, Hf. cbn. auto.
Qed.

(** X: [getHeadFingerprint] returns exactly the head [verifyChain]
    reports, both on the same stored log (migrated with the same clock)
    and on the log it leaves behind; it leaves the migrated log. *)
Theorem getHeadFingerprint_is_verified_head env1 env2 env3 s :
  let '(h, s1) := getHeadFingerprint sha256Hex date_iso env1 s in
  s1 = migrated sha256Hex date_iso env1 s /\
  h = v_head (fst (verifyChain sha256Hex date_iso env1 env2 s)) /\
  h = v_head (fst (verifyChain sha256Hex date_iso env2 env3 s1)).
Proof.
  pose proof (migrated_canonical sha256Hex date_iso sha_nonempty env1 s) as Hm.
  unfold getHeadFingerprint, loadChain.
  rewrite verifyChain_eq by exact sha_nonempty. cbn [fst].
  destruct (walk_head_canonical _ Hm) as [Hh Ht].
  set (m := migrated sha256Hex date_iso env1 s) in *.
  assert (Hv : v_head (fst (verifyChain sha256Hex date_iso env2 env3 m))
               = v_head (verify_walk sha256Hex (rev m))).
  { rewrite verifyChain_eq by exact sha_nonempty.
    now rewrite (migrated_canonical_id sha256Hex date_iso env2 _ Hm). }
  rewrite Hh in Hv |- *.
  destruct (rev m) as [|x c] eqn:E; cbv beta iota; rewrite Hv; [auto|].
  rewrite Ht by discriminate. auto.
Qed.

(** X: right after [appendEvent] returns a block, [getHeadFingerprint]
    returns that block's [blockHash] and changes nothing, whatever the
    stored log was before. *)
Theorem getHeadFingerprint_after_appendEvent env env' ts nonce ev s :
  let '(b, s') := appendEvent sha256Hex date_iso env ts nonce ev s in
  getHeadFingerprint sha256Hex date_iso env' s' = (b_blockHash b, s').
Proof.
  pose proof (appendEvent_not_legacy env ts nonce ev s) as Hn.
  pose proof (appendEvent_shape env ts nonce ev s) as Hs.
  destruct (appendEvent sha256Hex date_iso env ts nonce ev s) as [b s'] eqn:E.
  cbn [fst snd] in Hn, Hs.
  unfold getHeadFingerprint, loadChain.
  rewrite (migrated_canonical_id sha256Hex date_iso env' s' Hn).
  assert (Hb : truthy (b_blockHash b) = true).
  { apply not_legacy_truthy. rewrite Hs in Hn. cbn [existsb] in Hn.
    apply orb_false_iff in Hn; tauto. }
  rewrite Hs. cbn [rev].
  set (m := migrated sha256Hex date_iso env s).
  destruct (rev m ++ [b])%list as [|x c] eqn:Ec; [destruct (rev m); discriminate|].
  rewrite <- Ec, last_last, Hb. reflexivity.
Qed.

(** X: [exportChainFiles] throws exactly when neither directory is
    available; otherwise the JSONL file holds one line per block of the
    migrated chain in chronological order, and the manifest written next
    to it (same directory and [audit_] base) describes that same chain:
    its length, the last block's hash as head (also returned), and
    [verifyChain]'s [ok] and [breaks] for it. *)
Theorem exportChainFiles_manifest json_block manifest_json docDir cacheDir now env1 env2 env3 s :
  match exportChainFiles sha256Hex date_iso json_block manifest_json docDir cacheDir now
          env1 env2 env3 s with
  | None => truthy docDir = false /\ truthy cacheDir = false
  | Some (r, files, s') =>
    let chain := rev (migrated sha256Hex date_iso env1 s) in
    let v := verify_walk sha256Hex chain in
    s' = migrated sha256Hex date_iso env1 s /\
    x_chainHead r = match chain with [] => None | _ => b_blockHash (last chain empty_block) end /\
    (exists m, files = [(x_jsonlPath r, String.concat (String "010" "") (map json_block chain));
                        (x_manifestPath r, manifest_json m)] /\
       m_exportedAt m = now /\ m_count m = length chain /\ m_chainHead m = x_chainHead r /\
       m_ok m = v_ok v /\ m_breaks m = v_breaks v) /\
    (exists dir, (if truthy docDir then docDir else cacheDir) = Some dir /\
       x_jsonlPath r = dir ++ "audit_" ++ replace_colon_dot now ++ ".jsonl" /\
       x_manifestPath r = dir ++ "audit_" ++ replace_colon_dot now ++ ".manifest.json")
  end.
Proof.
  pose proof (migrated_canonical sha256Hex date_iso sha_nonempty env1 s) as Hm.
  unfold exportChainFiles, loadChain.
  destruct (truthy docDir) eqn:Hd.
  - destruct docDir as [d|]; [|discriminate]. cbn [negb truthy] in *. rewrite Hd.
    rewrite verifyChain_eq by exact sha_nonempty.
    rewrite (migrated_canonical_id sha256Hex date_iso env2 _ Hm).
    destruct (walk_head_canonical _ Hm) as [Hh Ht].
    set (m := migrated sha256Hex date_iso env1 s) in *.
    cbv zeta. split; [reflexivity|].
    assert (Hc : (if truthy (v_head (verify_walk sha256Hex (rev m)))
                  then v_head (verify_walk sha256Hex (rev m)) else None)
                 = match rev m with [] => None | _ => b_blockHash (last (rev m) empty_block) end).
    { rewrite Hh. destruct (rev m) as [|x c] eqn:E; [reflexivity|].
      rewrite Ht by discriminate. reflexivity. }
    cbn [x_chainHead x_jsonlPath x_manifestPath]. rewrite Hc.
    split; [reflexivity|]. split.
    + eexists; split; [reflexivity|]. cbn. auto.
    + exists d. unfold or_str. apply negb_true_iff in Hd. rewrite Hd. auto.
  - destruct (truthy cacheDir) eqn:Hc; cbn [negb].
    + destruct cacheDir as [d|]; [|discriminate].
      rewrite verifyChain_eq by exact sha_nonempty.
      rewrite (migrated_canonical_id sha256Hex date_iso env2 _ Hm).
      destruct (walk_head_canonical _ Hm) as [Hh Ht].
      set (m := migrated sha256Hex date_iso env1 s) in *.
      cbv zeta. split; [reflexivity|].
      assert (Hc' : (if truthy (v_head (verify_walk sha256Hex (rev m)))
                    then v_head (verify_walk sha256Hex (rev m)) else None)
                   = match rev m with [] => None | _ => b_blockHash (last (rev m) empty_block) end).
      { rewrite Hh. destruct (rev m) as [|x c] eqn:E; [reflexivity|].
        rewrite Ht by discriminate. reflexivity. }
      cbn [x_chainHead x_jsonlPath x_manifestPath]. rewrite Hc'.
      split; [reflexivity|]. split.
      * eexists; split; [reflexivity|]. cbn. auto.
      * exists d. cbn in Hc. unfold or_str. apply negb_true_iff in Hc. rewrite Hc. auto.
    + auto.
Qed.


End ChainExtras.

Example parseInt_iterations : js_parseInt10 (js_String_Z 100000) = Some 100000%Z.
Proof. reflexivity. Qed.

Example bytesToHex_example : bytesToHex [Byte.x0a; Byte.xff] = "0aff".
Proof. reflexivity. Qed.

(** [parseInt(_, 16)] skips white space and reads a sign; [Hex.parse]
    keeps an odd trailing digit as a half byte, and a negative operand
    sets the bytes before it in its word. *)
Example hex_parse_examples :
  js_parseInt16 " f" = Some 15%Z /\ js_parseInt16 "-1" = Some (-1)%Z /\ js_parseInt16 "0x" = None /\
  wordArrayToHex (hexToWordArray "abc") = "ab0c" /\ wordArrayToHex (hexToWordArray "00-1") = "ffff".
Proof. vm_compute. repeat split. Qed.

Lemma nth_or_at (j : nat) (x : Z) : forall (ws : list Z) (j' : nat),
  nth j' (or_at j x ws) 0%Z = if Nat.eqb j' j then Z.lor (nth j ws 0%Z) x else nth j' ws 0%Z.
Proof.
  induction j as [|j IH]; intros [|w ws] [|j']; cbn [or_at nth Nat.eqb]; try reflexivity;
    try (destruct j'; reflexivity); rewrite IH; [|reflexivity].
  destruct (Nat.eqb j' j), j, j'; reflexivity.
Qed.

Ltac ground_pow :=
  repeat match goal with
  | |- context [(2 ^ ?e)%Z] => let r := eval vm_compute in (2 ^ e)%Z in change (2 ^ e)%Z with r
  end.

(** A byte of [v << (24 - 8 a)], [v] a byte, at position [b] of its word. *)
Lemma word_byte_shl (v : Z) (a b : nat) : (0 <= v < 256)%Z -> a < 4 -> b < 4 ->
  Z.land (Z.shiftr (js_shl32 v (24 - Z.of_nat a * 8)) (24 - Z.of_nat b * 8)) 255 =
  if Nat.eqb a b then v else 0%Z.
Proof.
  intros Hv Ha Hb. unfold js_shl32. change 255%Z with (Z.ones 8).
  destruct a as [|[|[|[|a]]]]; [| | | |lia]; destruct b as [|[|[|[|b]]]]; try lia;
    cbn [Nat.eqb];
    rewrite Z.land_ones, Z.shiftr_div_pow2, Z.shiftl_mul_pow2 by (vm_compute; discriminate);
    ground_pow; Z.div_mod_to_equations; lia.
Qed.

(** One step of the loop at [i = 2 m] sets byte [m] and no other. *)
Lemma word_byte_or_at (ws : list Z) (m j : nat) (v : Z) : (0 <= v < 256)%Z ->
  word_byte (or_at (2 * m / 8) (js_shl32 v (24 - Z.of_nat ((2 * m) mod 8) * 4)) ws) j =
  if Nat.eqb j m then Z.lor (word_byte ws j) v else word_byte ws j.
Proof.
  intros Hv.
  replace (2 * m / 8) with (m / 4)
    by (change 8 with (2 * 4); rewrite Nat.Div0.div_mul_cancel_l; lia).
  replace (Z.of_nat ((2 * m) mod 8) * 4)%Z with (Z.of_nat (m mod 4) * 8)%Z
    by (change 8 with (2 * 4); rewrite Nat.Div0.mul_mod_distr_l; lia).
  unfold word_byte. rewrite nth_or_at.
  pose proof (Nat.div_mod_eq j 4) as Dj. pose proof (Nat.div_mod_eq m 4) as Dm.
  pose proof (Nat.mod_upper_bound j 4) as Bj. pose proof (Nat.mod_upper_bound m 4) as Bm.
  destruct (Nat.eqb_spec (j / 4) (m / 4)) as [E|E].
  - rewrite Z.shiftr_lor, Z.land_lor_distr_l, word_byte_shl by (auto; lia).
    rewrite <- E.
    destruct (Nat.eqb_spec (m mod 4) (j mod 4)) as [F|F];
      destruct (Nat.eqb_spec j m) as [G|G]; try lia; now rewrite ?Z.lor_0_r.
  - destruct (Nat.eqb_spec j m) as [G|G]; [subst; contradiction|reflexivity].
Qed.

Lemma word_byte_nil (j : nat) : word_byte [] j = 0%Z.
Proof.
  unfold word_byte. replace (nth (j / 4) [] 0%Z) with 0%Z by (destruct (j / 4); reflexivity).
  now rewrite Z.shiftr_0_l.
Qed.

(** The loop of [Hex.parse] from pair [m] ORs the operands, each a byte,
    into the bytes [m], [m + 1], ... *)
Lemma hex_parse_loop_bytes (s : string) : forall (m : nat) (ws : list Z) (j : nat),
  Forall (fun v => 0 <= v < 256)%Z (hex_chunks s) ->
  word_byte (hex_parse_loop (2 * m) s ws) j =
  if Nat.leb m j && Nat.ltb j (m + length (hex_chunks s))
  then Z.lor (word_byte ws j) (nth (j - m) (hex_chunks s) 0%Z)
  else word_byte ws j.
Proof.
  assert (H : forall n s, String.length s <= n -> forall m ws j,
    Forall (fun v => 0 <= v < 256)%Z (hex_chunks s) ->
    word_byte (hex_parse_loop (2 * m) s ws) j =
    if Nat.leb m j && Nat.ltb j (m + length (hex_chunks s))
    then Z.lor (word_byte ws j) (nth (j - m) (hex_chunks s) 0%Z)
    else word_byte ws j).
  { induction n as [|n IH]; intros [|c1 [|c2 r]] Hs m ws j Hf; cbn [String.length] in Hs;
      cbn [hex_parse_loop hex_chunks length] in *; try lia.
    - destruct (Nat.leb_spec m j), (Nat.ltb_spec j (m + 0)); cbn [andb]; try lia; reflexivity.
    - destruct (Nat.leb_spec m j), (Nat.ltb_spec j (m + 0)); cbn [andb]; try lia; reflexivity.
    - inversion Hf as [|? ? Hv _]. rewrite word_byte_or_at by exact Hv.
      destruct (Nat.eqb_spec j m) as [->|G].
      + rewrite Nat.leb_refl, Nat.sub_diag. cbn [nth].
        replace (Nat.ltb m (m + 1)) with true by (symmetry; apply Nat.ltb_lt; lia). reflexivity.
      + destruct (Nat.leb_spec m j), (Nat.ltb_spec j (m + 1)); cbn [andb]; try lia; reflexivity.
    - inversion Hf as [|? ? Hv Hr]. subst.
      replace (2 * m + 2) with (2 * S m) by lia.
      rewrite (IH r ltac:(lia) (S m) _ j Hr), word_byte_or_at by exact Hv.
      destruct (Nat.eqb_spec j m) as [->|G].
      + replace (Nat.leb (S m) m) with false by (symmetry; apply Nat.leb_gt; lia).
        rewrite Nat.leb_refl, Nat.sub_diag. cbn [andb nth].
        replace (Nat.ltb m (m + S (length (hex_chunks r)))) with true
          by (symmetry; apply Nat.ltb_lt; lia). reflexivity.
      + destruct (Nat.leb_spec (S m) j), (Nat.leb_spec m j),
          (Nat.ltb_spec j (S m + length (hex_chunks r))),
          (Nat.ltb_spec j (m + S (length (hex_chunks r)))); cbn [andb]; try lia; try reflexivity.
        replace (j - m) with (S (j - S m)) by lia. reflexivity. }
  intros m ws j Hf. exact (H _ s (le_n _) m ws j Hf).
Qed.

Lemma hex_chunks_length (s : string) : length (hex_chunks s) = (String.length s + 1) / 2.
Proof.
  assert (H : forall n s, String.length s <= n -> length (hex_chunks s) = (String.length s + 1) / 2).
  { induction n as [|n IH]; intros [|c1 [|c2 r]] Hs; cbn [hex_chunks length String.length] in *;
      try reflexivity; try lia.
    rewrite IH by lia. replace (S (S (String.length r)) + 1) with (String.length r + 1 + 1 * 2) by lia.
    rewrite Nat.div_add by lia. lia. }
  exact (H _ s (le_n _)).
Qed.

Lemma map_nth_seq_shift (l : list Z) : forall m,
  map (fun i => nth (i - m) l 0%Z) (seq m (length l)) = l.
Proof.
  induction l as [|a l IH]; intros m; [reflexivity|].
  cbn [length seq map]. rewrite Nat.sub_diag. cbn [nth]. f_equal.
  rewrite <- (IH (S m)) at 2. apply map_ext_in. intros i Hi. apply in_seq in Hi.
  replace (i - m) with (S (i - S m)) by lia. reflexivity.
Qed.

(** When every operand is a byte, [hexToWordArray] holds exactly them. *)
Lemma hexToBytes_chunks (s : string) :
  Forall (fun v => 0 <= v < 256)%Z (hex_chunks s) -> hexToBytes s = map byte_of_Z (hex_chunks s).
Proof.
  intros Hf. unfold hexToBytes, wa_bytes, hexToWordArray. cbn [wa_words wa_nibbles].
  rewrite <- hex_chunks_length.
  rewrite <- (map_nth_seq_shift (hex_chunks s) 0) at 2. rewrite map_map.
  apply map_ext_in. intros i Hi. apply in_seq in Hi.
  pose proof (hex_parse_loop_bytes s 0 [] i Hf) as Hl. rewrite Nat.mul_0_r in Hl.
  rewrite Hl, word_byte_nil.
  replace (Nat.leb 0 i && Nat.ltb i (0 + length (hex_chunks s))) with true
    by (symmetry; apply andb_true_iff; split; [apply Nat.leb_le|apply Nat.ltb_lt]; lia).
  reflexivity.
Qed.

Lemma hex_chunks_byte_hex (b : Byte.byte) (r : string) :
  hex_chunks (byte_hex b ++ r) = Z.of_nat (Byte.to_nat b) :: hex_chunks r.
Proof. destruct b; reflexivity. Qed.

Lemma hex_chunks_bytesToHex (l : list Byte.byte) :
  hex_chunks (bytesToHex l) = map (fun b => Z.of_nat (Byte.to_nat b)) l.
Proof.
  induction l as [|b l IH]; [reflexivity|].
  cbn [bytesToHex map]. rewrite hex_chunks_byte_hex, IH. reflexivity.
Qed.

Lemma hexToBytes_bytesToHex (l : list Byte.byte) : hexToBytes (bytesToHex l) = l.
Proof.
  rewrite hexToBytes_chunks; rewrite hex_chunks_bytesToHex.
  - rewrite map_map. rewrite (map_ext _ (fun b => b)) by (intros b; destruct b; reflexivity).
    apply map_id.
  - apply Forall_map, Forall_forall. intros b _. pose proof (Byte.to_nat_bounded b). lia.
Qed.

Lemma bytesToHex_length (l : list Byte.byte) :
  String.length (bytesToHex l) = 2 * length l.
Proof.
  induction l as [|b l IH]; [reflexivity|].
  cbn [bytesToHex byte_hex append String.length length]. rewrite IH. lia.
Qed.

Lemma byte_of_nat_to_nat (n : nat) : n <= 255 -> Byte.to_nat (byte_of_nat n) = n.
Proof.
  intro Hn. unfold byte_of_nat.
  destruct (Byte.of_nat n) eqn:E.
  - apply Byte.to_of_nat_iff; exact E.
  - apply Byte.of_nat_None_iff in E. lia.
Qed.

Lemma pkcs7_unpad_pad (m : list Byte.byte) : pkcs7_unpad (pkcs7_pad m) = m.
Proof.
  unfold pkcs7_unpad, pkcs7_pad.
  set (n := 16 - length m mod 16).
  assert (Hn : 1 <= n <= 16) by (pose proof (Nat.mod_upper_bound (length m) 16); unfold n; lia).
  assert (Hl : last (m ++ repeat (byte_of_nat n) n)%list Byte.x00 = byte_of_nat n).
  { destruct n as [|k]; [lia|].
    replace (S k) with (k + 1) by lia.
    rewrite repeat_app, app_assoc. cbn [repeat]. rewrite last_last. reflexivity. }
  rewrite Hl, byte_of_nat_to_nat by lia.
  rewrite length_app, repeat_length.
  replace (length m + n - n) with (length m) by lia.
  rewrite firstn_app, firstn_all, Nat.sub_diag, firstn_O, app_nil_r. reflexivity.
Qed.

Lemma pkcs7_pad_length (m : list Byte.byte) : length (pkcs7_pad m) mod 16 = 0.
Proof.
  unfold pkcs7_pad. rewrite length_app, repeat_length.
  pose proof (Nat.mod_upper_bound (length m) 16).
  pose proof (Nat.div_mod_eq (length m) 16).
  replace (length m + (16 - length m mod 16)) with ((length m / 16 + 1) * 16) by lia.
  apply Nat.Div0.mod_mul.
Qed.

Section VaultProofs.
Variable pbkdf2 : string -> list Byte.byte -> option Z -> list Byte.byte.
Variables aes_cbc_encrypt aes_cbc_decrypt :
  list Byte.byte -> list Byte.byte -> list Byte.byte -> list Byte.byte.
Variable base64_stringify : list Byte.byte -> string.
Variable base64_parse : string -> list Byte.byte.
Variable utf8_parse : string -> list Byte.byte.
Variable utf8_stringify : list Byte.byte -> option string.
Variable sha256 : list Byte.byte -> list Byte.byte.
Variable hmac_sha256 : list Byte.byte -> string -> list Byte.byte.

Local Abbreviation wrap := (wrapMasterKey aes_cbc_encrypt base64_stringify).
Local Abbreviation unwrap := (unwrapMasterKey aes_cbc_decrypt base64_parse).
Local Abbreviation encrypt :=
  (encryptEntryWithMaster aes_cbc_encrypt base64_stringify utf8_parse sha256 hmac_sha256).
Local Abbreviation verify := (verifyEntryHMAC sha256 hmac_sha256).
Local Abbreviation decrypt := (decryptEntryWithMaster aes_cbc_decrypt base64_parse utf8_stringify).
Local Abbreviation create := (handleCreateVault pbkdf2 aes_cbc_encrypt base64_stringify).
Local Abbreviation unlock := (handleUnlock pbkdf2 aes_cbc_decrypt base64_parse sha256 hmac_sha256).
Local Abbreviation view :=
  (handleViewEntry aes_cbc_decrypt base64_parse utf8_stringify sha256 hmac_sha256).

Lemma appendTamperLog_keys (ev : LogItem) (st : Store) :
  ss_wrapped (appendTamperLog ev st) = ss_wrapped st /\ ss_salt (appendTamperLog ev st) = ss_salt st /\
  ss_iter (appendTamperLog ev st) = ss_iter st /\ ss_created (appendTamperLog ev st) = ss_created st /\
  as_entries (appendTamperLog ev st) = as_entries st /\ as_meta (appendTamperLog ev st) = as_meta st.
Proof. repeat split. Qed.



Lemma findIndex_prefix (id : string) (l1 : list Entry) (x : Entry) (l2 : list Entry) :
  Forall (fun y => e_id y <> id) l1 -> e_id x = id ->
  findIndex (fun entry => String.eqb (e_id entry) id) (l1 ++ x :: l2)%list = Some (length l1).
Proof.
  intros Hl Hx. induction Hl as [|y l1 Hy Hl IH]; cbn.
  - rewrite Hx, String.eqb_refl. reflexivity.
  - destruct (String.eqb_spec (e_id y) id) as [E|E]; [contradiction|]. rewrite IH. reflexivity.
Qed.

Lemma list_set_prefix {A} (l1 : list A) (x v : A) (l2 : list A) :
  list_set (length l1) v (l1 ++ x :: l2)%list = (l1 ++ v :: l2)%list.
Proof. induction l1 as [|y l1 IH]; cbn; [reflexivity|]. rewrite IH. reflexivity. Qed.

Lemma nth_error_prefix {A} (l1 : list A) (x : A) (l2 : list A) :
  nth_error (l1 ++ x :: l2)%list (length l1) = Some x.
Proof. induction l1 as [|y l1 IH]; cbn; auto. Qed.

Section Contracts.
Hypothesis aes_roundtrip : forall k iv m,
  length m mod 16 = 0 -> aes_cbc_decrypt k iv (aes_cbc_encrypt k iv m) = m.
Hypothesis base64_roundtrip : forall l, base64_parse (base64_stringify l) = l.
Hypothesis utf8_roundtrip : forall s, utf8_stringify (utf8_parse s) = Some s.




Lemma string_eqb_nonempty (s : string) : 1 <= String.length s -> String.eqb s "" = false.
Proof. destruct s; [cbn; lia | reflexivity]. Qed.





End Contracts.

(** X: once the key records are present and the biometric gate passed,
    [handleUnlock] never raises on unwrapping: it reports [WrongPassphrase]
    (logging [unlock_failed]/[wrong_passphrase]) exactly when the
    PKCS7-unpadded decryption of the wrapped key is not 32 bytes, and
    otherwise unlocks with whatever those 32 bytes are. *)
Theorem unlock_rejects_by_length_only (p : string) (bio : bool * bool) (now : string) (st : Store)
    (wrapped wrapIvHex saltHex iterStr : string) :
  ss_wrapped st = Some (wrapped, wrapIvHex) -> ss_salt st = Some saltHex ->
  ss_iter st = Some iterStr -> saltHex <> "" -> iterStr <> "" ->
  (match as_meta st with Some b => b | None => false end && fst bio && negb (snd bio)) = false ->
  let raw := pkcs7_unpad (aes_cbc_decrypt (deriveKeyPBKDF2 pbkdf2 p saltHex (js_parseInt10 iterStr))
                            (hexToBytes wrapIvHex) (base64_parse wrapped)) in
  unlock p bio now st =
    if Nat.eqb (length raw) 32 then
      (Unlocked (bytesToHex raw),
       appendTamperLog (mkLog now "unlocked" (Some "success") None)
         (verifyIntegrity sha256 hmac_sha256 (bytesToHex raw) now st))
    else
      (WrongPassphrase,
       appendTamperLog (mkLog now "unlock_failed" (Some "wrong_passphrase") None) st).
Proof.
  intros H1 H2 H3 H4 H5 H6 raw. unfold handleUnlock. rewrite H1, H2, H3, H6.
  apply String.eqb_neq in H4, H5. rewrite H4, H5. cbn [orb].
  fold (unwrapMasterKey aes_cbc_decrypt base64_parse wrapped
          (deriveKeyPBKDF2 pbkdf2 p saltHex (js_parseInt10 iterStr)) wrapIvHex).
  unfold unwrapMasterKey. fold raw.
  rewrite bytesToHex_length.
  destruct (Nat.eqb_spec (length raw) 32) as [E|E].
  - rewrite (string_eqb_nonempty (bytesToHex raw)) by (rewrite bytesToHex_length; lia).
    rewrite E. reflexivity.
  - replace (Nat.eqb (2 * length raw) 64) with false by (symmetry; apply Nat.eqb_neq; lia).
    rewrite orb_true_r. reflexivity.
Qed.

(** C8: [handleViewEntry] with a mismatching HMAC yields
    [IntegrityFailure] and the [entry_integrity_fail] log item, its result
    not depending on decryption; an entry produced by
    [encryptEntryWithMaster] with a changed [hmac] is refused with
    [IntegrityFailure], and so is one with a changed [ciphertext] whose
    HMAC input gets an HMAC-SHA256 value different from the original
    one's (no collision at that one message). *)
Theorem view_integrity_gate (K M : string) (ivBytes : list Byte.byte) (ts id now : string) (st : Store) :
  K <> "" ->
  (forall e, verify K e = false ->
     view (Some K) e now st =
       (IntegrityFailure,
        appendTamperLog (mkLog now "entry_integrity_fail" None (Some (e_id e))) st)) /\
  (let '(iv, ct, h, ts') := encrypt K M ivBytes ts in
   (forall h', h' <> h -> fst (view (Some K) (mkEntry id iv ct h' ts') now st) = IntegrityFailure) /\
   (forall ct', ct' <> ct ->
      hmac_sha256 (sha256 (hexToBytes K)) (hmac_input iv ct' ts') <>
        hmac_sha256 (sha256 (hexToBytes K)) (hmac_input iv ct ts') ->
      fst (view (Some K) (mkEntry id iv ct' h ts') now st) = IntegrityFailure)).
Proof.
  intros HK. apply String.eqb_neq in HK.
  assert (Hgate : forall e, verify K e = false ->
     view (Some K) e now st =
       (IntegrityFailure,
        appendTamperLog (mkLog now "entry_integrity_fail" None (Some (e_id e))) st)).
  { intros e He. unfold handleViewEntry. rewrite HK, He. reflexivity. }
  split; [exact Hgate|].
  unfold encryptEntryWithMaster. split.
  - intros h' Hh. rewrite Hgate; [reflexivity|].
    unfold verifyEntryHMAC. cbn [e_iv e_ciphertext e_timestamp e_hmac].
    apply String.eqb_neq. intro E. apply Hh. symmetry. exact E.
  - intros ct' _ Hmac. rewrite Hgate; [reflexivity|].
    unfold verifyEntryHMAC. cbn [e_iv e_ciphertext e_timestamp e_hmac].
    apply String.eqb_neq. intro E.
    apply (f_equal hexToBytes) in E. rewrite !hexToBytes_bytesToHex in E.
    rewrite hexToBytes_bytesToHex in Hmac. exact (Hmac E).
Qed.
End VaultProofs.

(** C9: on any store, [appendEntry] prepends the new entry and keeps
    every stored entry unchanged and in its newest-first order; the
    exported [updateEntry] rewrites in place the first stored entry whose
    id matches, merging the given fields into it, and leaves the other
    entries and their order as they were. *)
Theorem appendEntry_prepends_updateEntry_merges :
  (forall (e : Entry) (st : Store), loadEntries (appendEntry e st) = e :: loadEntries st) /\
  (forall (st : Store) (id : string) (u : PartialEntry) (l1 : list Entry) (x : Entry)
          (l2 : list Entry),
     loadEntries st = (l1 ++ x :: l2)%list -> Forall (fun y => e_id y <> id) l1 -> e_id x = id ->
     loadEntries (updateEntry id u st) = (l1 ++ merge_entry x u :: l2)%list).
Proof.
  split; [reflexivity|].
  intros st id u l1 x l2 Hs Hl Hx.
  unfold updateEntry. rewrite Hs, findIndex_prefix by assumption.
  rewrite nth_error_prefix, list_set_prefix. reflexivity.
Qed.


Section VaultExtras.
Variable pbkdf2 : string -> list Byte.byte -> option Z -> list Byte.byte.
Variables aes_cbc_encrypt aes_cbc_decrypt :
  list Byte.byte -> list Byte.byte -> list Byte.byte -> list Byte.byte.
Variable base64_stringify : list Byte.byte -> string.
Variable base64_parse : string -> list Byte.byte.
Variable utf8_parse : string -> list Byte.byte.
Variable utf8_stringify : list Byte.byte -> option string.
Variable sha256 : list Byte.byte -> list Byte.byte.
Variable hmac_sha256 : list Byte.byte -> string -> list Byte.byte.

Local Abbreviation verify := (verifyEntryHMAC sha256 hmac_sha256).
Local Abbreviation create := (handleCreateVault pbkdf2 aes_cbc_encrypt base64_stringify).
Local Abbreviation unlock := (handleUnlock pbkdf2 aes_cbc_decrypt base64_parse sha256 hmac_sha256).
Local Abbreviation view :=
  (handleViewEntry aes_cbc_decrypt base64_parse utf8_stringify sha256 hmac_sha256).
Local Abbreviation save :=
  (handleSaveNewEntry aes_cbc_encrypt base64_stringify utf8_parse sha256 hmac_sha256).
Local Abbreviation verifyNow := (handleVerifyNow sha256 hmac_sha256).

Lemma find_updateEntry (id : string) (u : PartialEntry) (l : list Entry) :
  p_id u = None ->
  let f := fun entry => String.eqb (e_id entry) id in
  match findIndex f l with
  | Some i =>
    match nth_error l i with
    | Some old => find f (list_set i (merge_entry old u) l)
    | None => find f l
    end
  | None => find f l
  end = option_map (fun x => merge_entry x u) (find f l).
Proof.
  intros Hu f. induction l as [|x t IH]; [reflexivity|].
  cbn [findIndex find]. destruct (f x) eqn:Hx.
  - cbn [nth_error list_set find].
    replace (f (merge_entry x u)) with true; [reflexivity|].
    unfold f in *. unfold merge_entry. rewrite Hu. cbn [e_id]. now rewrite Hx.
  - destruct (findIndex f t) as [i|] eqn:Hi; cbn [option_map nth_error list_set find].
    + rewrite Hx. destruct (nth_error t i); [exact IH|exact IH].
    + exact IH.
Qed.

Lemma filter_all_true {A} (f : A -> bool) (l : list A) :
  Forall (fun x => f x = true) l -> filter f l = l.
Proof. induction 1 as [|x l Hx _ IH]; cbn; [reflexivity|]. now rewrite Hx, IH. Qed.


Lemma bytesToHex_empty (l : list Byte.byte) : String.eqb (bytesToHex l) "" = Nat.eqb (length l) 0.
Proof. destruct l; reflexivity. Qed.

(** X: [getEntry] returns the most recently appended entry with the
    requested id: an entry appended with that id shadows every older one,
    and appending an entry with another id leaves the lookup unchanged. *)
Theorem getEntry_after_appendEntry (e : Entry) (id : string) (st : Store) :
  getEntry id (appendEntry e st) = if String.eqb (e_id e) id then Some e else getEntry id st.
Proof. reflexivity. Qed.

(** X: when the update does not carry an [id], [getEntry] after
    [updateEntry id u] returns the entry [getEntry id] returned before,
    with the fields of [u] merged in, and nothing when there was none;
    the number of stored entries is unchanged. *)
Theorem getEntry_after_updateEntry (id : string) (u : PartialEntry) (st : Store) :
  p_id u = None ->
  getEntry id (updateEntry id u st) = option_map (fun x => merge_entry x u) (getEntry id st) /\
  length (loadEntries (updateEntry id u st)) = length (loadEntries st).
Proof.
  intros Hu. split.
  - unfold getEntry, updateEntry.
    pose proof (find_updateEntry id u (loadEntries st) Hu) as H. cbv zeta in H.
    destruct (findIndex _ (loadEntries st)) as [i|];
      [destruct (nth_error (loadEntries st) i)|]; exact H.
  - unfold updateEntry.
    destruct (findIndex _ (loadEntries st)) as [i|]; [|reflexivity].
    destruct (nth_error (loadEntries st) i); [|reflexivity].
    unfold saveEntries, loadEntries at 1. cbn [as_entries set_entries].
    generalize (loadEntries st) i. clear.
    induction l as [|x t IH]; intros [|j]; cbn; auto.
Qed.

(** X: [handleUnlock] reports "not initialized" exactly when the startup
    effect finds the vault uninitialized (no wrapped key, or an empty or
    missing salt or iteration count), and then touches nothing. *)
Theorem unlock_not_initialized_iff_startup (p : string) (bio : bool * bool) (now : string) (st : Store) :
  (fst (unlock p bio now st) = NotInitialized <-> startup_initialized st = false) /\
  (startup_initialized st = false -> snd (unlock p bio now st) = st).
Proof.
  unfold handleUnlock, startup_initialized.
  destruct (ss_wrapped st) as [[w iv]|]; destruct (ss_salt st) as [sa|];
    destruct (ss_iter st) as [it|]; cbn [andb truthy fst snd]; rewrite ?andb_false_r;
    try (split; [split|]; auto; fail).
  destruct (String.eqb sa "") eqn:Hs, (String.eqb it "") eqn:Hi; cbn [orb negb andb];
    try (split; [split|]; auto; fail).
  all: split; [split; [|discriminate]|discriminate].
  all: destruct (_ && _ && _); [discriminate|]; destruct (_ || _); discriminate.
Qed.

(** X: [clearAllVaultStorage] leaves an uninitialized vault: no entries,
    no log, no settings, and [handleUnlock] then reports "not
    initialized" for every passphrase and changes nothing (unlike
    [performPanicWipe], see C5). *)
Theorem clearAllVaultStorage_uninitializes (p : string) (bio : bool * bool) (now : string) (st : Store) :
  let st' := clearAllVaultStorage st in
  startup_initialized st' = false /\ loadEntries st' = [] /\ loadTamperLog st' = [] /\
  as_meta st' = None /\ ss_created st' = None /\ unlock p bio now st' = (NotInitialized, st').
Proof. repeat split. Qed.

(** X: [handleCreateVault] has three outcomes: a mismatching (or empty)
    confirmation changes nothing; a matching passphrase shorter than 12
    characters changes nothing; otherwise the vault is created and any
    previous entries and log are discarded: no entry, a log holding only
    [vault_created], biometrics off, the generated salt, an iteration
    count that reads back as 100000, and a vault the startup check sees
    as initialized whenever the salt is nonempty. *)
Theorem handleCreateVault_outcomes (A B : string) (master salt wrapIv : list Byte.byte)
    (now : string) (st : Store) :
  let '(o, st') := create A B master salt wrapIv now st in
  (o = PassphraseMismatch /\ st' = st /\ (A = "" \/ A <> B)) \/
  (o = WeakPassphrase /\ st' = st /\ A = B /\ 1 <= String.length A < 12) \/
  (o = VaultCreated /\ A = B /\ 12 <= String.length A /\
   loadEntries st' = [] /\ loadTamperLog st' = [mkLog now "vault_created" None None] /\
   as_meta st' = Some false /\ ss_salt st' = Some (bytesToHex salt) /\ ss_created st' = Some now /\
   option_map js_parseInt10 (ss_iter st') = Some (Some PBKDF2_ITERATIONS) /\
   startup_initialized st' = negb (Nat.eqb (length salt) 0)).
Proof.
  unfold handleCreateVault.
  destruct (String.eqb_spec A "") as [HA|HA]; cbn [orb].
  { left. auto. }
  destruct (String.eqb_spec A B) as [HB|HB]; cbn [negb].
  2: { left. auto. }
  destruct (Nat.ltb_spec (String.length A) 12) as [Hl|Hl].
  - right; left. repeat split; auto. destruct A; [congruence|cbn; lia].
  - right; right. repeat split; auto.
    unfold startup_initialized. cbn [ss_wrapped ss_salt ss_iter appendTamperLog set_tamper set_meta
      saveEntries set_entries set_secure truthy].
    rewrite bytesToHex_empty. cbn [andb]. now rewrite andb_true_r.
Qed.

(** X: with biometrics enabled on an initialized vault, a device with
    biometric hardware whose authentication fails gets [BiometricFailed]
    whatever the passphrase, with only [unlock_failed]/[biometric_failed]
    logged. *)
Theorem unlock_biometric_failure (p : string) (now : string) (st : Store) :
  startup_initialized st = true -> as_meta st = Some true ->
  unlock p (true, false) now st =
  (BiometricFailed, appendTamperLog (mkLog now "unlock_failed" (Some "biometric_failed") None) st).
Proof.
  unfold handleUnlock, startup_initialized. intros Hi Hm.
  destruct (ss_wrapped st) as [[w iv]|]; destruct (ss_salt st) as [sa|];
    destruct (ss_iter st) as [it|]; cbn [andb truthy] in Hi; rewrite ?andb_false_r in Hi;
    try discriminate.
  apply andb_true_iff in Hi as [Hs Hit]. apply negb_true_iff in Hs, Hit.
  rewrite Hs, Hit, Hm. reflexivity.
Qed.

(** X: the biometric gate only matters when biometrics are enabled, the
    device has the hardware and authentication fails: in every other case
    [handleUnlock] behaves as without biometrics. *)
Theorem unlock_biometric_not_required (p : string) (bio : bool * bool) (now : string) (st : Store) :
  (as_meta st <> Some true \/ fst bio = false \/ snd bio = true) ->
  unlock p bio now st = unlock p (false, false) now st.
Proof.
  intros H. unfold handleUnlock.
  destruct (ss_wrapped st) as [[w iv]|]; destruct (ss_salt st) as [sa|];
    destruct (ss_iter st) as [it|]; try reflexivity.
  destruct (_ || _); [reflexivity|].
  destruct (as_meta st) as [[|]|]; destruct bio as [[|] [|]]; cbn [fst snd andb negb] in *;
    try reflexivity.
  destruct H as [H|[H|H]]; [exfalso; exact (H eq_refl)|discriminate|discriminate].
Qed.

(** X: [handleSaveNewEntry] does nothing while the vault is locked or
    when the text is empty or only white space. *)
Theorem handleSaveNewEntry_ignores_blank (k : option string) (text : string) (iv : list Byte.byte)
    (ts : string) (nowMs : Z) (now : string) (st : Store) :
  (k = None \/ k = Some "" \/ js_trim text = "") ->
  save k text iv ts nowMs now st = st.
Proof.
  intros H. unfold handleSaveNewEntry.
  destruct k as [K|]; [|reflexivity].
  destruct (String.eqb_spec K "") as [->|HK]; [reflexivity|].
  destruct H as [H|[H|H]]; try (injection H; congruence); try discriminate.
  rewrite H. cbn [String.eqb]. now rewrite orb_true_r.
Qed.

(** X: every entry [handleSaveNewEntry] stores under the key passes
    [verifyEntryHMAC] under that key, so a store whose entries all pass
    keeps that property across saves. *)
Theorem handleSaveNewEntry_keeps_integrity (K text : string) (iv : list Byte.byte) (ts : string)
    (nowMs : Z) (now : string) (st : Store) :
  Forall (fun e => verify K e = true) (loadEntries st) ->
  Forall (fun e => verify K e = true) (loadEntries (save (Some K) text iv ts nowMs now st)).
Proof.
  intros H. unfold handleSaveNewEntry.
  destruct (String.eqb K ""); [exact H|].
  destruct (_ || _); [exact H|].
  unfold encryptEntryWithMaster. cbn [loadEntries appendTamperLog set_tamper appendEntry
    saveEntries set_entries as_entries].
  constructor; [|exact H].
  unfold verifyEntryHMAC. cbn [e_iv e_ciphertext e_timestamp e_hmac]. apply String.eqb_refl.
Qed.

(** X: when every stored entry passes under the key, [handleVerifyNow]
    logs [integrity_check] with "n ok, 0 fail" for the [n] stored entries,
    then [manual_integrity_check], and changes no entry. *)
Theorem handleVerifyNow_all_ok (K now now' : string) (st : Store) :
  K <> "" -> Forall (fun e => verify K e = true) (loadEntries st) ->
  loadTamperLog (verifyNow (Some K) now now' st) =
    mkLog now' "manual_integrity_check" None None
    :: mkLog now "integrity_check"
         (Some (js_String_Z (Z.of_nat (length (loadEntries st))) ++ " ok, 0 fail")) None
    :: loadTamperLog st /\
  loadEntries (verifyNow (Some K) now now' st) = loadEntries st.
Proof.
  intros HK H. unfold handleVerifyNow.
  rewrite (proj2 (String.eqb_neq K "") HK).
  split; [|reflexivity].
  unfold verifyIntegrity, count_ok. rewrite (filter_all_true _ _ H), Nat.sub_diag.
  reflexivity.
Qed.

(** X: [performPanicWipe] keeps the previous tamper log and adds
    [panic_wiped] on top of it, preceded by [panic_wipe_failed] exactly
    when a wrapped key is stored (the entry check of its post-check can
    never fire, the entries having just been removed). *)
Theorem performPanicWipe_log (junk : nat -> Entry -> string) (now : string) (st : Store) :
  loadTamperLog (performPanicWipe junk now st) =
  mkLog now "panic_wiped" None None
  :: (match ss_wrapped st with
      | Some _ => [mkLog now "panic_wipe_failed" (Some "Data still exists after wipe") None]
      | None => []
      end ++ loadTamperLog st)%list.
Proof.
  unfold performPanicWipe. cbn [seq fold_left]. unfold junk_pass, saveEntries, clearAllEntries.
  destruct (ss_wrapped st) as [w|] eqn:Hw; cbn; rewrite Hw; reflexivity.
Qed.

Section SaveContracts.
Hypothesis aes_roundtrip : forall k iv m,
  length m mod 16 = 0 -> aes_cbc_decrypt k iv (aes_cbc_encrypt k iv m) = m.
Hypothesis base64_roundtrip : forall l, base64_parse (base64_stringify l) = l.
Hypothesis utf8_roundtrip : forall s, utf8_stringify (utf8_parse s) = Some s.


End SaveContracts.
End VaultExtras.


(* ------------------------------------------------------------------ *)
(** ** More of the codecs *)

Lemma is_lower_hex_cases (c : ascii) :
  is_lower_hex c = true -> In c (list_ascii_of_string "0123456789abcdef").
Proof.
  unfold is_lower_hex. intros H. apply existsb_exists in H as (x & Hx & Hc).
  apply Ascii.eqb_eq in Hc. now subst.
Qed.

(** A pair of lowercase hex digits is read as the byte it prints as. *)
Lemma lower_pair_chunk (c1 c2 : ascii) : is_lower_hex c1 = true -> is_lower_hex c2 = true ->
  (0 <= parseInt16_int (String c1 (String c2 "")) < 256)%Z /\
  byte_hex (byte_of_Z (parseInt16_int (String c1 (String c2 "")))) = String c1 (String c2 "").
Proof.
  intros H1 H2. apply is_lower_hex_cases in H1, H2. cbn [list_ascii_of_string In] in H1, H2.
  repeat destruct H1 as [H1|H1]; subst; try contradiction;
    repeat destruct H2 as [H2|H2]; subst; try contradiction; (vm_compute; split; [split; [discriminate|reflexivity]|reflexivity]).
Qed.

(** A lone lowercase hex digit [d] is read as the byte printed [0d]. *)
Lemma lower_digit_chunk (d : ascii) : is_lower_hex d = true ->
  (0 <= parseInt16_int (String d "") < 256)%Z /\
  byte_hex (byte_of_Z (parseInt16_int (String d ""))) = String "0" (String d "").
Proof.
  intros H. apply is_lower_hex_cases in H. cbn [list_ascii_of_string In] in H.
  repeat destruct H as [H|H]; subst; try contradiction; (vm_compute; split; [split; [discriminate|reflexivity]|reflexivity]).
Qed.

Lemma lower_hex_pairs_chunks (s : string) : lower_hex_pairs s = true ->
  Forall (fun v => 0 <= v < 256)%Z (hex_chunks s) /\ bytesToHex (map byte_of_Z (hex_chunks s)) = s.
Proof.
  assert (H : forall n s, String.length s <= n -> lower_hex_pairs s = true ->
    Forall (fun v => 0 <= v < 256)%Z (hex_chunks s) /\ bytesToHex (map byte_of_Z (hex_chunks s)) = s).
  { induction n as [|n IH]; intros [|c1 [|c2 r]] Hs Hp; cbn [String.length] in Hs;
      try (split; [constructor|reflexivity]); try lia; try discriminate.
    cbn [lower_hex_pairs] in Hp. apply andb_true_iff in Hp as [Hp Hr].
    apply andb_true_iff in Hp as [H1 H2].
    destruct (lower_pair_chunk c1 c2 H1 H2) as [Hb Hh].
    destruct (IH r ltac:(lia) Hr) as [Hf Hr'].
    cbn [hex_chunks map bytesToHex]. split; [constructor; assumption|].
    rewrite Hh, Hr'. reflexivity. }
  intros Hp. exact (H _ s (le_n _) Hp).
Qed.

Lemma hex_chunks_app_digit (s : string) (d : ascii) : lower_hex_pairs s = true ->
  hex_chunks (s ++ String d "") = (hex_chunks s ++ [parseInt16_int (String d "")])%list.
Proof.
  assert (H : forall n s, String.length s <= n -> lower_hex_pairs s = true ->
    hex_chunks (s ++ String d "") = (hex_chunks s ++ [parseInt16_int (String d "")])%list).
  { induction n as [|n IH]; intros [|c1 [|c2 r]] Hs Hp; cbn [String.length] in Hs;
      try reflexivity; try lia; try discriminate.
    cbn [lower_hex_pairs] in Hp. apply andb_true_iff in Hp as [_ Hr].
    cbn [append hex_chunks]. rewrite IH by (auto; lia). reflexivity. }
  intros Hp. exact (H _ s (le_n _) Hp).
Qed.

Lemma string_append_assoc (x y z : string) : ((x ++ y) ++ z)%string = (x ++ (y ++ z))%string.
Proof. induction x as [|a x IH]; cbn; [reflexivity|now rewrite IH]. Qed.

Lemma bytesToHex_app (l1 l2 : list Byte.byte) :
  bytesToHex (l1 ++ l2) = (bytesToHex l1 ++ bytesToHex l2)%string.
Proof.
  induction l1 as [|b l1 IH]; [reflexivity|].
  cbn [app bytesToHex]. now rewrite IH, string_append_assoc.
Qed.

Lemma lower_hex_pairs_bytesToHex (l : list Byte.byte) : lower_hex_pairs (bytesToHex l) = true.
Proof.
  induction l as [|b l IH]; [reflexivity|].
  cbn [bytesToHex byte_hex append lower_hex_pairs]. rewrite IH, andb_true_r.
  destruct b; reflexivity.
Qed.

(** X: [hexToWordArray] ([CryptoJS.enc.Hex.parse]) exposes one byte per
    pair of hex digits and keeps an odd trailing digit as a half byte: a
    string of n digits gives (n + 1) / 2 bytes, and a lowercase digit [d]
    after lowercase pairs [s] prints back through [wordArrayToHex] as
    [s] then [0d]. [bytesToHex] prints two lowercase hex digits per byte,
    and [hexToWordArray] reads them back. *)
Theorem hex_codec_shape (s : string) (d : ascii) (l : list Byte.byte) :
  length (hexToBytes s) = (String.length s + 1) / 2 /\
  (lower_hex_pairs s = true -> is_lower_hex d = true ->
     wordArrayToHex (hexToWordArray (s ++ String d "")) = (s ++ String "0" (String d ""))%string) /\
  String.length (bytesToHex l) = 2 * length l /\
  lower_hex_pairs (bytesToHex l) = true /\
  hexToBytes (bytesToHex l) = l.
Proof.
  split; [|split; [|split; [apply bytesToHex_length|split; [apply lower_hex_pairs_bytesToHex|apply hexToBytes_bytesToHex]]]].
  - unfold hexToBytes, wa_bytes. now rewrite length_map, length_seq.
  - intros Hp Hd. change (wordArrayToHex (hexToWordArray (s ++ String d "")))
      with (bytesToHex (hexToBytes (s ++ String d ""))).
    destruct (lower_hex_pairs_chunks s Hp) as [Hf Hs].
    destruct (lower_digit_chunk d Hd) as [Hb Hh].
    rewrite hexToBytes_chunks; rewrite hex_chunks_app_digit by exact Hp.
    + rewrite map_app, bytesToHex_app, Hs. cbn [map bytesToHex]. rewrite Hh. reflexivity.
    + apply Forall_app. split; [exact Hf|constructor; [exact Hb|constructor]].
Qed.

(** X: on a string of lowercase hex pairs, printing the parsed bytes gives
    the string back: [bytesToHex] and [hexToWordArray] are inverse
    bijections between byte lists and such strings. *)
Theorem bytesToHex_hexToBytes (s : string) :
  lower_hex_pairs s = true -> bytesToHex (hexToBytes s) = s.
Proof.
  intros Hp. destruct (lower_hex_pairs_chunks s Hp) as [Hf Hs].
  now rewrite hexToBytes_chunks.
Qed.

(** X: PKCS7 padding appends 1 to 16 bytes, each holding the number of
    bytes appended, up to a multiple of 16, and [pkcs7_unpad] removes
    exactly them. *)
Theorem pkcs7_pad_shape (m : list Byte.byte) :
  let p := pkcs7_pad m in
  length p mod 16 = 0 /\ length m < length p <= length m + 16 /\
  firstn (length m) p = m /\
  Forall (fun b => Byte.to_nat b = length p - length m) (skipn (length m) p) /\
  pkcs7_unpad p = m.
Proof.
  cbv zeta. split; [apply pkcs7_pad_length|]. split; [|split; [|split]].
  - unfold pkcs7_pad. rewrite length_app, repeat_length.
    pose proof (Nat.mod_upper_bound (length m) 16). lia.
  - unfold pkcs7_pad. rewrite firstn_app, firstn_all, Nat.sub_diag, firstn_O, app_nil_r.
    reflexivity.
  - unfold pkcs7_pad. rewrite length_app, repeat_length, skipn_app, skipn_all, Nat.sub_diag.
    cbn [skipn app]. apply Forall_forall. intros x Hx. apply repeat_spec in Hx. subst x.
    pose proof (Nat.mod_upper_bound (length m) 16).
    rewrite byte_of_nat_to_nat by lia. lia.
  - apply pkcs7_unpad_pad.
Qed.

(** X: the export base name [audit_] + [now.replace(/[:.]/g, "-")] has
    no colon and no dot left, and the timestamp part keeps its length. *)
Theorem export_base_name (now : string) :
  ~ In ":"%char (list_ascii_of_string (replace_colon_dot now)) /\
  ~ In "."%char (list_ascii_of_string (replace_colon_dot now)) /\
  String.length (replace_colon_dot now) = String.length now.
Proof.
  induction now as [|c r IH]; cbn; [tauto|].
  destruct IH as (H1 & H2 & H3).
  destruct (Ascii.eqb_spec c ":") as [E1|E1]; destruct (Ascii.eqb_spec c ".") as [E2|E2];
    cbn [orb list_ascii_of_string In]; (split; [|split]); try (rewrite H3; reflexivity);
    intros [E|E]; try contradiction; try discriminate; congruence.
Qed.

(* ------------------------------------------------------------------ *)
(** ** The computable instance meets the contracts *)

Lemma sha_hex_nonempty : forall s, ToyCrypto.sha_hex s <> "".
Proof. discriminate. Qed.






(* ------------------------------------------------------------------ *)
(** ** Witnesses: the theorems' hypotheses hold at concrete inputs *)

Import ToyCrypto.

Lemma appendEvents_chain_witness :
  (forall s, sha_hex s <> "") /\
  (let stored := appendEvents sha_hex no_date calls3 [] in
   let chain := rev stored in
   let v := fst (verifyChain sha_hex no_date env0 env0 stored) in
   map b_seq chain = map (fun i => Some (Z.of_nat i)) (seq 1 (length calls3)) /\
   linked JNull chain /\
   v_ok v = true /\ v_breaks v = 0%nat /\
   v_head v = match chain with [] => None | _ => b_blockHash (last chain empty_block) end).
Proof.
  split; [exact sha_hex_nonempty|].
  exact (appendEvents_chain sha_hex no_date sha_hex_nonempty calls3 env0 env0).
Defined.

Lemma tamper_detail_single_break_witness :
  let r := fst (verifyChain sha_hex no_date env0 env0 chain3) in
  let stored := snd (verifyChain sha_hex no_date env0 env0 chain3) in
  let l1 := firstn 1 stored in
  let b := nth 1 stored empty_block in
  let l2 := skipn 2 stored in
  length l1 = 1%nat /\ length l2 = 1%nat /\
  verifyChain sha_hex no_date env0 env0 chain3 = (r, (l1 ++ b :: l2)%list) /\
  v_breaks r = 0%nat /\
  sha_hex (canonicalStringForBlock (set_detail b "tampered")) <>
    sha_hex (canonicalStringForBlock b) /\
  (let v := fst (verifyChain sha_hex no_date env0 env0 (l1 ++ set_detail b "tampered" :: l2)) in
   v_breaks v = 1%nat /\ v_ok v = false /\
   exists D1 dt D2, v_details v = (D1 ++ dt :: D2)%list /\ length D1 = length l2 /\
     length D2 = length l1 /\
     d_seq dt = b_seq b /\ d_prevMatches dt = true /\ d_blockMatches dt = false /\
     Forall (fun x => passes x = true) (D1 ++ D2)).
Proof.
  intros r stored l1 b l2.
  assert (L1 : length l1 = 1%nat) by (vm_compute; reflexivity).
  assert (L2 : length l2 = 1%nat) by (vm_compute; reflexivity).
  assert (H1 : verifyChain sha_hex no_date env0 env0 chain3 = (r, (l1 ++ b :: l2)%list))
    by (vm_compute; reflexivity).
  assert (H2 : v_breaks r = 0%nat) by (vm_compute; reflexivity).
  assert (H3 : sha_hex (canonicalStringForBlock (set_detail b "tampered")) <>
               sha_hex (canonicalStringForBlock b))
    by (vm_compute; discriminate).
  split; [exact L1|]. split; [exact L2|].
  split; [exact H1|]. split; [exact H2|]. split; [exact H3|].
  exact (tamper_detail_single_break sha_hex no_date sha_hex_nonempty env0 env0 env0 env0
           chain3 r l1 b l2 "tampered" H1 H2 H3).
Defined.

Lemma ensureMigrated_idempotent_witness :
  (forall s, sha_hex s <> "") /\
  ensureMigrated sha_hex no_date env0 legacy_log <> None /\
  (let s1 := migrated sha_hex no_date env0 legacy_log in
   ensureMigrated sha_hex no_date env0 s1 = None /\
   migrated sha_hex no_date env0 s1 = s1).
Proof.
  split; [exact sha_hex_nonempty|].
  split; [vm_compute; discriminate|].
  exact (ensureMigrated_idempotent sha_hex no_date sha_hex_nonempty env0 env0 legacy_log).
Defined.

Lemma verifyChain_ignores_custody_nonce_witness :
  Forall2 (fun b1 b2 => erase_cn b1 = erase_cn b2) chain3 (map (set_custody "courier") chain3) /\
  map (set_custody "courier") chain3 <> chain3 /\
  fst (verifyChain sha_hex no_date env0 env0 chain3) =
  fst (verifyChain sha_hex no_date env0 env0 (map (set_custody "courier") chain3)).
Proof.
  assert (H : Forall2 (fun b1 b2 => erase_cn b1 = erase_cn b2) chain3
                (map (set_custody "courier") chain3))
    by (vm_compute; repeat constructor).
  split; [exact H|]. split; [vm_compute; discriminate|].
  exact (verifyChain_ignores_custody_nonce sha_hex no_date env0 env0 _ _ H).
Defined.



Lemma unlock_rejects_by_length_only_witness :
  let st := snd (handleCreateVault kdf enc b64s "aaaaaaaaaaaaaaaa" "aaaaaaaaaaaaaaaa"
                   master salt wrapIv "T0" store0) in
  let wp := match ss_wrapped st with Some p => p | None => ("", "") end in
  let saltHex := match ss_salt st with Some x => x | None => "" end in
  let iterStr := match ss_iter st with Some x => x | None => "" end in
  ss_wrapped st = Some (fst wp, snd wp) /\ ss_salt st = Some saltHex /\
  ss_iter st = Some iterStr /\ saltHex <> "" /\ iterStr <> "" /\
  (match as_meta st with Some b => b | None => false end && fst (false, false)
     && negb (snd (false, false))) = false /\
  (let raw := pkcs7_unpad (dec (deriveKeyPBKDF2 kdf "baaaaaaaaaaaaaaa" saltHex (js_parseInt10 iterStr))
                             (hexToBytes (snd wp)) (b64p (fst wp))) in
   handleUnlock kdf dec b64p sha hmac "baaaaaaaaaaaaaaa" (false, false) "T1" st =
     if Nat.eqb (length raw) 32 then
       (Unlocked (bytesToHex raw),
        appendTamperLog (mkLog "T1" "unlocked" (Some "success") None)
          (verifyIntegrity sha hmac (bytesToHex raw) "T1" st))
     else
       (WrongPassphrase,
        appendTamperLog (mkLog "T1" "unlock_failed" (Some "wrong_passphrase") None) st)).
Proof.
  intros st wp saltHex iterStr.
  assert (H1 : ss_wrapped st = Some (fst wp, snd wp)) by (vm_compute; reflexivity).
  assert (H2 : ss_salt st = Some saltHex) by (vm_compute; reflexivity).
  assert (H3 : ss_iter st = Some iterStr) by (vm_compute; reflexivity).
  assert (H4 : saltHex <> "") by (vm_compute; discriminate).
  assert (H5 : iterStr <> "") by (vm_compute; discriminate).
  assert (H6 : (match as_meta st with Some b => b | None => false end && fst (false, false)
                && negb (snd (false, false))) = false) by (vm_compute; reflexivity).
  do 6 (split; [assumption|]).
  exact (unlock_rejects_by_length_only kdf dec b64p sha hmac "baaaaaaaaaaaaaaa" (false, false) "T1"
           st (fst wp) (snd wp) saltHex iterStr H1 H2 H3 H4 H5 H6).
Defined.


Lemma view_integrity_gate_witness :
  bytesToHex master <> "" /\
  (let '(iv, ct, h, ts') :=
     encryptEntryWithMaster enc b64s u8p sha hmac (bytesToHex master) "dear diary" wrapIv "T2" in
   flip_first h <> h /\
   fst (handleViewEntry dec b64p u8s sha hmac (Some (bytesToHex master))
          (mkEntry "1" iv ct (flip_first h) ts') "T3" store0) = IntegrityFailure /\
   flip_first ct <> ct /\
   hmac (sha (hexToBytes (bytesToHex master))) (hmac_input iv (flip_first ct) ts') <>
     hmac (sha (hexToBytes (bytesToHex master))) (hmac_input iv ct ts') /\
   fst (handleViewEntry dec b64p u8s sha hmac (Some (bytesToHex master))
          (mkEntry "1" iv (flip_first ct) h ts') "T3" store0) = IntegrityFailure).
Proof.
  assert (HK : bytesToHex master <> "") by (vm_compute; discriminate).
  split; [exact HK|].
  pose proof (proj2 (view_integrity_gate enc dec b64s b64p u8p u8s sha hmac
                       (bytesToHex master) "dear diary" wrapIv "T2" "1" "T3" store0 HK)) as G.
  destruct (encryptEntryWithMaster enc b64s u8p sha hmac (bytesToHex master) "dear diary" wrapIv "T2")
    as [[[iv ct] h] ts'] eqn:E.
  vm_compute in E. injection E as E1 E2 E3 E4. subst iv ct h ts'.
  destruct G as [G1 G2].
  split; [vm_compute; discriminate|]. split; [apply G1; vm_compute; discriminate|].
  split; [vm_compute; discriminate|]. split; [vm_compute; discriminate|].
  apply G2; vm_compute; discriminate.
Defined.

Lemma appendEntry_prepends_updateEntry_merges_witness :
  loadEntries store0 = [] /\
  loadEntries (appendEntry entry1 store0) = [entry1] /\
  loadEntries store2 = ([entry1] ++ entry2 :: [])%list /\
  Forall (fun y => e_id y <> e_id entry2) [entry1] /\ e_id entry2 = e_id entry2 /\
  loadEntries (updateEntry (e_id entry2) (mkPartialEntry None None (Some "Zm9yZ2Vk") None None) store2)
  = ([entry1] ++ merge_entry entry2 (mkPartialEntry None None (Some "Zm9yZ2Vk") None None) :: [])%list.
Proof.
  destruct appendEntry_prepends_updateEntry_merges as [A U].
  assert (H0 : loadEntries store0 = []) by reflexivity.
  assert (H1 : loadEntries store2 = ([entry1] ++ entry2 :: [])%list) by reflexivity.
  assert (H2 : Forall (fun y => e_id y <> e_id entry2) [entry1])
    by (constructor; [vm_compute; discriminate | constructor]).
  assert (H3 : e_id entry2 = e_id entry2) by reflexivity.
  split; [exact H0|]. split; [rewrite (A entry1 store0), H0; reflexivity|].
  do 3 (split; [assumption|]).
  exact (U store2 (e_id entry2) (mkPartialEntry None None (Some "Zm9yZ2Vk") None None)
           [entry1] entry2 [] H1 H2 H3).
Defined.

Import ToyRuns.

Lemma migration_repairs_legacy_log_witness :
  (forall s, sha_hex s <> "") /\ existsb is_legacy legacy_log = true /\
  (let s := migrated sha_hex no_date env0 legacy_log in
   let v := fst (verifyChain sha_hex no_date env0 env0 legacy_log) in
   snd (verifyChain sha_hex no_date env0 env0 legacy_log) = s /\
   length s = length legacy_log /\
   map b_seq (rev s) = map (fun i => Some (Z.of_nat i)) (seq 1 (length legacy_log)) /\
   linked JNull (rev s) /\
   map b_raw (rev s) = map raw_of (rev legacy_log) /\
   v_ok v = true /\ v_breaks v = 0%nat /\ Forall (fun d => passes d = true) (v_details v)).
Proof.
  assert (H : existsb is_legacy legacy_log = true) by reflexivity.
  split; [exact sha_hex_nonempty|]. split; [exact H|].
  exact (migration_repairs_legacy_log sha_hex no_date sha_hex_nonempty env0 env0 legacy_log H).
Defined.

Lemma appendEvent_on_legacy_log_witness :
  (forall s, sha_hex s <> "") /\ existsb is_legacy legacy_log = true /\
  (let '(b, s') := appendEvent sha_hex no_date env0 "t3" "n3" (event "entry_added") legacy_log in
   let v := fst (verifyChain sha_hex no_date env0 env0 s') in
   s' = b :: migrated sha_hex no_date env0 legacy_log /\
   b_seq b = Some (Z.of_nat (S (length legacy_log))) /\
   v_ok v = true /\ v_breaks v = 0%nat /\ v_head v = b_blockHash b).
Proof.
  assert (H : existsb is_legacy legacy_log = true) by reflexivity.
  split; [exact sha_hex_nonempty|]. split; [exact H|].
  exact (appendEvent_on_legacy_log sha_hex no_date sha_hex_nonempty env0 env0 env0 "t3" "n3"
           (event "entry_added") legacy_log H).
Defined.

Lemma getHeadFingerprint_is_verified_head_witness :
  (forall s, sha_hex s <> "") /\
  fst (getHeadFingerprint sha_hex no_date env0 legacy_log) <> None /\
  (let '(h, s1) := getHeadFingerprint sha_hex no_date env0 legacy_log in
   s1 = migrated sha_hex no_date env0 legacy_log /\
   h = v_head (fst (verifyChain sha_hex no_date env0 env0 legacy_log)) /\
   h = v_head (fst (verifyChain sha_hex no_date env0 env0 s1))).
Proof.
  split; [exact sha_hex_nonempty|]. split; [vm_compute; discriminate|].
  exact (getHeadFingerprint_is_verified_head sha_hex no_date sha_hex_nonempty env0 env0 env0
           legacy_log).
Defined.

Lemma getHeadFingerprint_after_appendEvent_witness :
  (forall s, sha_hex s <> "") /\
  (let '(b, s') := appendEvent sha_hex no_date env0 "t4" "n4" (event "entry_viewed") chain3 in
   getHeadFingerprint sha_hex no_date env0 s' = (b_blockHash b, s')).
Proof.
  split; [exact sha_hex_nonempty|].
  exact (getHeadFingerprint_after_appendEvent sha_hex no_date sha_hex_nonempty env0 env0 "t4" "n4"
           (event "entry_viewed") chain3).
Defined.

Lemma exportChainFiles_manifest_witness :
  (forall s, sha_hex s <> "") /\
  exportChainFiles sha_hex no_date show_block show_manifest (Some "file:///docs/") None
    "2024-01-01T00:00:00.000Z" env0 env0 env0 legacy_log <> None /\
  match exportChainFiles sha_hex no_date show_block show_manifest (Some "file:///docs/") None
          "2024-01-01T00:00:00.000Z" env0 env0 env0 legacy_log with
  | None => truthy (Some "file:///docs/") = false /\ truthy None = false
  | Some (r, files, s') =>
    let chain := rev (migrated sha_hex no_date env0 legacy_log) in
    let v := verify_walk sha_hex chain in
    s' = migrated sha_hex no_date env0 legacy_log /\
    x_chainHead r = match chain with [] => None | _ => b_blockHash (last chain empty_block) end /\
    (exists m, files = [(x_jsonlPath r, String.concat (String "010" "") (map show_block chain));
                        (x_manifestPath r, show_manifest m)] /\
       m_exportedAt m = "2024-01-01T00:00:00.000Z" /\ m_count m = length chain /\
       m_chainHead m = x_chainHead r /\ m_ok m = v_ok v /\ m_breaks m = v_breaks v) /\
    (exists dir, (if truthy (Some "file:///docs/") then Some "file:///docs/" else None) = Some dir /\
       x_jsonlPath r = dir ++ "audit_" ++ replace_colon_dot "2024-01-01T00:00:00.000Z" ++ ".jsonl" /\
       x_manifestPath r =
         dir ++ "audit_" ++ replace_colon_dot "2024-01-01T00:00:00.000Z" ++ ".manifest.json")
  end.
Proof.
  split; [exact sha_hex_nonempty|]. split; [vm_compute; discriminate|].
  exact (exportChainFiles_manifest sha_hex no_date sha_hex_nonempty show_block show_manifest
           (Some "file:///docs/") None "2024-01-01T00:00:00.000Z" env0 env0 env0 legacy_log).
Defined.

Lemma getEntry_after_updateEntry_witness :
  p_id upd1 = None /\ getEntry (e_id entry2) store2 <> None /\
  getEntry (e_id entry2) (updateEntry (e_id entry2) upd1 store2)
  = option_map (fun x => merge_entry x upd1) (getEntry (e_id entry2) store2) /\
  length (loadEntries (updateEntry (e_id entry2) upd1 store2)) = length (loadEntries store2).
Proof.
  assert (H : p_id upd1 = None) by reflexivity.
  split; [exact H|]. split; [vm_compute; discriminate|].
  exact (getEntry_after_updateEntry (e_id entry2) upd1 store2 H).
Defined.

Lemma unlock_biometric_failure_witness :
  startup_initialized vault1_bio = true /\ as_meta vault1_bio = Some true /\
  handleUnlock kdf dec b64p sha hmac "correct-horse-battery" (true, false) "T1" vault1_bio =
  (BiometricFailed,
   appendTamperLog (mkLog "T1" "unlock_failed" (Some "biometric_failed") None) vault1_bio).
Proof.
  assert (H1 : startup_initialized vault1_bio = true) by (vm_compute; reflexivity).
  assert (H2 : as_meta vault1_bio = Some true) by reflexivity.
  split; [exact H1|]. split; [exact H2|].
  exact (unlock_biometric_failure kdf dec b64p sha hmac "correct-horse-battery" "T1" vault1_bio
           H1 H2).
Defined.

Lemma unlock_biometric_not_required_witness :
  (as_meta vault1_bio <> Some true \/ fst (true, true) = false \/ snd (true, true) = true) /\
  handleUnlock kdf dec b64p sha hmac "correct-horse-battery" (true, true) "T1" vault1_bio =
  handleUnlock kdf dec b64p sha hmac "correct-horse-battery" (false, false) "T1" vault1_bio.
Proof.
  assert (H : as_meta vault1_bio <> Some true \/ fst (true, true) = false \/ snd (true, true) = true)
    by (right; right; reflexivity).
  split; [exact H|].
  exact (unlock_biometric_not_required kdf dec b64p sha hmac "correct-horse-battery" (true, true)
           "T1" vault1_bio H).
Defined.

Lemma handleSaveNewEntry_ignores_blank_witness :
  (Some key1 = None \/ Some key1 = Some "" \/ js_trim (String " " (String "009" "")) = "") /\
  handleSaveNewEntry enc b64s u8p sha hmac (Some key1) (String " " (String "009" "")) wrapIv "T2"
    1700000000000%Z "T3" vault1 = vault1.
Proof.
  assert (H : Some key1 = None \/ Some key1 = Some "" \/ js_trim (String " " (String "009" "")) = "")
    by (right; right; reflexivity).
  split; [exact H|].
  exact (handleSaveNewEntry_ignores_blank enc b64s u8p sha hmac (Some key1)
           (String " " (String "009" "")) wrapIv "T2" 1700000000000%Z "T3" vault1 H).
Defined.

Lemma handleSaveNewEntry_keeps_integrity_witness :
  Forall (fun e => verifyEntryHMAC sha hmac key1 e = true) (loadEntries vault2) /\
  Forall (fun e => verifyEntryHMAC sha hmac key1 e = true)
    (loadEntries (handleSaveNewEntry enc b64s u8p sha hmac (Some key1) "second entry" salt "T4"
                    1700000000001%Z "T5" vault2)).
Proof.
  assert (H : Forall (fun e => verifyEntryHMAC sha hmac key1 e = true) (loadEntries vault2))
    by (vm_compute; repeat constructor).
  split; [exact H|].
  exact (handleSaveNewEntry_keeps_integrity enc b64s u8p sha hmac key1 "second entry" salt "T4"
           1700000000001%Z "T5" vault2 H).
Defined.

Lemma handleVerifyNow_all_ok_witness :
  key1 <> "" /\ Forall (fun e => verifyEntryHMAC sha hmac key1 e = true) (loadEntries vault2) /\
  loadTamperLog (handleVerifyNow sha hmac (Some key1) "T6" "T7" vault2) =
    mkLog "T7" "manual_integrity_check" None None
    :: mkLog "T6" "integrity_check"
         (Some (js_String_Z (Z.of_nat (length (loadEntries vault2))) ++ " ok, 0 fail")) None
    :: loadTamperLog vault2 /\
  loadEntries (handleVerifyNow sha hmac (Some key1) "T6" "T7" vault2) = loadEntries vault2.
Proof.
  assert (H1 : key1 <> "") by (vm_compute; discriminate).
  assert (H2 : Forall (fun e => verifyEntryHMAC sha hmac key1 e = true) (loadEntries vault2))
    by (vm_compute; repeat constructor).
  split; [exact H1|]. split; [exact H2|].
  exact (handleVerifyNow_all_ok sha hmac key1 "T6" "T7" vault2 H1 H2).
Defined.


Lemma bytesToHex_hexToBytes_witness :
  lower_hex_pairs "00ff7e0a" = true /\ bytesToHex (hexToBytes "00ff7e0a") = "00ff7e0a".
Proof.
  assert (H : lower_hex_pairs "00ff7e0a" = true) by reflexivity.
  split; [exact H|]. exact (bytesToHex_hexToBytes "00ff7e0a" H).
Defined.

Lemma hex_codec_shape_witness :
  lower_hex_pairs "ab" = true /\ is_lower_hex "c" = true /\
  length (hexToBytes "ab") = (String.length "ab" + 1) / 2 /\
  wordArrayToHex (hexToWordArray ("ab" ++ String "c" "")) = ("ab" ++ String "0" (String "c" ""))%string /\
  hexToBytes (bytesToHex [Byte.x0a; Byte.xff]) = [Byte.x0a; Byte.xff].
Proof.
  assert (H1 : lower_hex_pairs "ab" = true) by reflexivity.
  assert (H2 : is_lower_hex "c" = true) by reflexivity.
  destruct (hex_codec_shape "ab" "c" [Byte.x0a; Byte.xff]) as (L & W & _ & _ & R).
  split; [exact H1|]. split; [exact H2|]. split; [exact L|]. split; [exact (W H1 H2)|]. exact R.
Defined.

(* ------------------------------------------------------------------ *)
(** ** Counterexamples *)

(** Against C9: the exported [updateEntry] rewrites an individual stored
    entry in place, outside any panic wipe: the older entry gets a new
    ciphertext and HMAC while the store keeps its size. *)
Lemma updateEntry_rewrites_stored_entry :
  let st := updateEntry (e_id entry2) (mkPartialEntry None None (Some "Zm9yZ2Vk") (Some "h3") None)
              store2 in
  loadEntries st = [entry1; mkEntry (e_id entry2) "cc22dd" "Zm9yZ2Vk" "h3" "t2"] /\
  loadEntries st <> loadEntries store2 /\
  length (loadEntries st) = length (loadEntries store2).
Proof.
  cbv zeta. split; [reflexivity|]. split; [vm_compute; discriminate|].
  reflexivity.
Qed.
